(** * prom: fixed-precision atomic gauge and counter

    A shallow embedding of [fixed_precision.go] (package [prom]) and the
    properties of its specification.

    The Go values are modelled as follows.
    - [int64] and [uint] are integers of [Z] with their two's-complement
      wrap-around written out ([wrap_int64], [wrap_uint]); [uint] is the
      64-bit one of the 64-bit targets.
    - [float64] is IEEE 754 binary64, taken from the standard library's
      executable specification [SpecFloat] (53 bits of mantissa, round to
      nearest even), so that every conversion and product the code performs
      can be evaluated.
    - The cell is a record; an atomic store, add or load is one step on the
      [val] field.
    - A panic is an explicit [completion] returned next to the state the
      call leaves behind. *)

From Stdlib Require Import ZArith Bool List Sorted Permutation String Lia.
From Stdlib Require Import Floats.SpecFloat.
Import ListNotations.

Local Open Scope Z_scope.

(** ** float64 *)

Definition float64 : Type := spec_float.

Module Float64.

Definition mantissa_bits : Z := 53.
Definition emax : Z := 1024.

Definition valid (x : float64) : bool := valid_binary mantissa_bits emax x.

Definition mul : float64 -> float64 -> float64 := SFmul mantissa_bits emax.
Definition div : float64 -> float64 -> float64 := SFdiv mantissa_bits emax.
Definition neg : float64 -> float64 := SFopp.
Definition ltb : float64 -> float64 -> bool := SFltb.
Definition leb : float64 -> float64 -> bool := SFleb.
Definition eqb : float64 -> float64 -> bool := SFeqb.

(** [float64(z)] for an integer [z]: rounded to nearest, ties to even. *)
Definition of_Z (z : Z) : float64 := binary_normalize mantissa_bits emax z 0 false.

(** The constant [n / d] ([d > 0]) as Go converts an exact constant to
    [float64]: the nearest float, ties to even. *)
Definition of_ratio (n : Z) (d : positive) : float64 :=
  match n with
  | Z0 => S754_zero false
  | Zpos p => SFdiv mantissa_bits emax (S754_finite false p 0) (S754_finite false d 0)
  | Zneg p => SFdiv mantissa_bits emax (S754_finite true p 0) (S754_finite false d 0)
  end.

Definition zero : float64 := S754_zero false.
Definition one : float64 := of_Z 1.
Definition minus_one : float64 := of_Z (-1).
Definition nan : float64 := S754_nan.
Definition pos_inf : float64 := S754_infinity false.

(** The integer part of a finite float, rounded toward zero; [None] for
    NaN and the infinities. *)
Definition trunc (x : float64) : option Z :=
  match x with
  | S754_zero _ => Some 0
  | S754_finite s m e =>
      let a := match e with
               | Zneg k => Z.shiftr (Zpos m) (Zpos k)
               | _ => Z.shiftl (Zpos m) e
               end in
      Some (if s then - a else a)
  | S754_infinity _ | S754_nan => None
  end.

(** [x < 0], [x >= 0] and [x != x] as the comparison of the hardware
    decides them: both orders are false on NaN. *)
Definition negative (x : float64) : Prop := SFcompare x zero = Some Lt.
Definition non_negative (x : float64) : Prop :=
  SFcompare x zero = Some Eq \/ SFcompare x zero = Some Gt.
Definition is_nan (x : float64) : Prop := x = S754_nan.

End Float64.

(** ** Machine integers *)

Definition min_int64 : Z := - 2 ^ 63.
Definition max_int64 : Z := 2 ^ 63 - 1.
Definition max_uint : Z := 2 ^ 64 - 1.

Definition in_int64 (z : Z) : bool := (min_int64 <=? z) && (z <=? max_int64).
Definition in_uint (z : Z) : bool := (0 <=? z) && (z <=? max_uint).

(** Two's-complement reduction: what an [int64] ([uint]) operation or an
    integer-to-integer conversion keeps of the exact result. *)
Definition wrap_int64 (z : Z) : Z := (z + 2 ^ 63) mod 2 ^ 64 - 2 ^ 63.
Definition wrap_uint (z : Z) : Z := z mod 2 ^ 64.

(** *** Conversions from float64

    The language fixes [int64(f)] and [uint(f)] only when the truncated
    value fits the target type; otherwise "the conversion succeeds but the
    result value is implementation-dependent".  That result is a parameter
    of the model. *)
Section Conversions.

Variable int64_unrepresentable : float64 -> Z.
Variable uint_unrepresentable : float64 -> Z.

Definition int64_of_float (f : float64) : Z :=
  match Float64.trunc f with
  | Some z => if in_int64 z then z else wrap_int64 (int64_unrepresentable f)
  | None => wrap_int64 (int64_unrepresentable f)
  end.

Definition uint_of_float (f : float64) : Z :=
  match Float64.trunc f with
  | Some z => if in_uint z then z else wrap_uint (uint_unrepresentable f)
  | None => wrap_uint (uint_unrepresentable f)
  end.

End Conversions.

(** The two 64-bit targets of the gc compiler.  On amd64 [int64(f)] is one
    CVTTSD2SQ, which yields the "integer indefinite" value [-2^63] for NaN
    and for every value out of range; on arm64 it is one FCVTZS, which
    saturates and maps NaN to 0. *)
Definition amd64_int64 (_ : float64) : Z := min_int64.

Definition arm64_int64 (f : float64) : Z :=
  match f with
  | S754_nan => 0
  | S754_infinity true | S754_finite true _ _ => min_int64
  | _ => max_int64
  end.

(** On arm64 [uint(f)] is one FCVTZU, which saturates and maps NaN to 0. *)
Definition arm64_uint (f : float64) : Z :=
  match f with
  | S754_infinity false | S754_finite false _ _ => max_uint
  | _ => 0
  end.

(** ** The descriptor

    [prometheus.Desc], [prometheus.NewDesc] and [prometheus.BuildFQName]
    belong to the collection framework.  The cell only stores the
    descriptor and hands it back, so it is kept as the data it is built
    from. *)

Record Opts : Type := {
  Namespace : string;
  Subsystem : string;
  Name : string;
  Help : string;
  ConstLabels : list (string * string)
}.

Record Desc : Type := {
  fqName : string;
  help : string;
  variableLabels : list string;
  constLabels : list (string * string)
}.

Definition is_empty (s : string) : bool :=
  match s with EmptyString => true | _ => false end.

Definition BuildFQName (namespace subsystem name : string) : string :=
  if is_empty name then EmptyString
  else if negb (is_empty namespace) && negb (is_empty subsystem)
       then (namespace ++ "_" ++ subsystem ++ "_" ++ name)%string
  else if negb (is_empty namespace) then (namespace ++ "_" ++ name)%string
  else if negb (is_empty subsystem) then (subsystem ++ "_" ++ name)%string
  else name.

Definition NewDesc (fq hlp : string) (vars : list string)
    (labels : list (string * string)) : Desc :=
  {| fqName := fq; help := hlp; variableLabels := vars; constLabels := labels |}.

(** ** math.Pow10

    The library function: [pow10postab32[n/32] * pow10tab[n%32]] for
    [0 <= n <= 308], [pow10negtab32[-n/32] / pow10tab[-n%32]] for
    [-323 <= n <= 0], [+Inf] above and [0] below.  The tables hold the
    constants [1e0 .. 1e31], [1e0, 1e32, .. 1e288] and [1e-0, 1e-32, ..
    1e-320], each the float nearest to its power of ten. *)
Definition pow10tab (k : Z) : float64 := Float64.of_Z (10 ^ k).
Definition pow10postab32 (j : Z) : float64 := Float64.of_Z (10 ^ (32 * j)).
Definition pow10negtab32 (j : Z) : float64 :=
  Float64.of_ratio 1 (Z.to_pos (10 ^ (32 * j))).

Definition Pow10 (n : Z) : float64 :=
  if (0 <=? n) && (n <=? 308) then
    Float64.mul (pow10postab32 (n / 32)) (pow10tab (n mod 32))
  else if (-323 <=? n) && (n <=? 0) then
    Float64.div (pow10negtab32 (- n / 32)) (pow10tab (- n mod 32))
  else if 0 <? n then Float64.pos_inf
  else Float64.zero.

(** ** FixedPrecisionGauge *)

Record FixedPrecisionGauge : Type := {
  val : Z;   (* int64 *)
  prec : Z;  (* uint: the scale factor, not the number of digits *)
  desc : Desc
}.

Definition with_val (fpg : FixedPrecisionGauge) (v : Z) : FixedPrecisionGauge :=
  {| val := v; prec := prec fpg; desc := desc fpg |}.

(** [sync/atomic] on the [val] field: each is one indivisible step. *)
Definition atomic_StoreInt64 (fpg : FixedPrecisionGauge) (x : Z) : FixedPrecisionGauge :=
  with_val fpg x.
Definition atomic_AddInt64 (fpg : FixedPrecisionGauge) (d : Z) : FixedPrecisionGauge :=
  with_val fpg (wrap_int64 (val fpg + d)).
Definition atomic_LoadInt64 (fpg : FixedPrecisionGauge) : Z := val fpg.

(** The record the framework hands to [Write]: [dto.Metric], of which the
    code touches the [Counter] field only. *)
Record Metric : Type := {
  m_Label : list (string * string);
  m_Gauge : option float64;
  m_Counter : option float64
}.

Definition empty_Metric : Metric :=
  {| m_Label := []; m_Gauge := None; m_Counter := None |}.

(** The methods of [*FixedPrecisionGauge]. *)
Module Gauge.
Section Methods.

Variable int64_unrepresentable : float64 -> Z.
Variable uint_unrepresentable : float64 -> Z.

Let to_int64 := int64_of_float int64_unrepresentable.
Let to_uint := uint_of_float uint_unrepresentable.

Definition NewFixedPrecisionGauge (opts : Opts) (p : Z) : FixedPrecisionGauge :=
  let d := NewDesc (BuildFQName (Namespace opts) (Subsystem opts) (Name opts))
                   (Help opts) [] (ConstLabels opts) in
  {| val := 0; prec := to_uint (Pow10 (wrap_int64 p)); desc := d |}.

Definition Set_ (fpg : FixedPrecisionGauge) (v : float64) : FixedPrecisionGauge :=
  atomic_StoreInt64 fpg (wrap_int64 (to_int64 v * wrap_int64 (prec fpg))).

Definition add (fpg : FixedPrecisionGauge) (delta : Z) : FixedPrecisionGauge :=
  atomic_AddInt64 fpg (wrap_int64 (delta * wrap_int64 (prec fpg))).

Definition Inc (fpg : FixedPrecisionGauge) : FixedPrecisionGauge := add fpg 1.

Definition Dec (fpg : FixedPrecisionGauge) : FixedPrecisionGauge := add fpg (-1).

Definition Add (fpg : FixedPrecisionGauge) (delta : float64) : FixedPrecisionGauge :=
  atomic_AddInt64 fpg (to_int64 (Float64.mul delta (Float64.of_Z (prec fpg)))).

Definition Sub (fpg : FixedPrecisionGauge) (v : float64) : FixedPrecisionGauge :=
  Add fpg (Float64.mul v Float64.minus_one).

Definition Value (fpg : FixedPrecisionGauge) : float64 :=
  Float64.div (Float64.of_Z (atomic_LoadInt64 fpg)) (Float64.of_Z (prec fpg)).

(** [Write] returns the cell, the record it filled and the error; [None]
    is [nil]. *)
Definition Write (fpg : FixedPrecisionGauge) (out : Metric)
    : FixedPrecisionGauge * Metric * option string :=
  let f := Float64.div (Float64.of_Z (atomic_LoadInt64 fpg)) (Float64.of_Z (prec fpg)) in
  (fpg, {| m_Label := m_Label out; m_Gauge := m_Gauge out; m_Counter := Some f |},
   None).

Definition Desc_ (fpg : FixedPrecisionGauge) : Desc := desc fpg.

(** [now] is the reading of [time.Now().Unix()]. *)
Definition SetToCurrentTime (fpg : FixedPrecisionGauge) (now : Z) : FixedPrecisionGauge :=
  Set_ fpg (Float64.of_Z now).

End Methods.
End Gauge.

(** ** FixedPrecisionCounter *)

(** The struct embeds a [FixedPrecisionGauge] and stores nothing else. *)
Record FixedPrecisionCounter : Type := {
  gauge : FixedPrecisionGauge
}.

(** How a call ends: it returns, or it panics with a message. *)
Inductive completion : Type :=
| Normal
| Panic (msg : string).

Module Counter.
Section Methods.

Variable int64_unrepresentable : float64 -> Z.
Variable uint_unrepresentable : float64 -> Z.

Definition NewFixedPrecisionCounter (opts : Opts) (p : Z) : FixedPrecisionCounter :=
  let d := NewDesc (BuildFQName (Namespace opts) (Subsystem opts) (Name opts))
                   (Help opts) [] (ConstLabels opts) in
  {| gauge := {| val := 0;
                 prec := uint_of_float uint_unrepresentable (Pow10 (wrap_int64 p));
                 desc := d |} |}.

(** [Add] returns the counter as the call leaves it and how the call
    ended. *)
Definition Add (fpc : FixedPrecisionCounter) (v : float64)
    : FixedPrecisionCounter * completion :=
  if Float64.ltb v Float64.zero then
    (fpc, Panic "counter cannot decrease in value")
  else
    ({| gauge := Gauge.Add int64_unrepresentable (gauge fpc) v |}, Normal).

End Methods.
End Counter.

(** The two factories return the cells behind the framework's interfaces
    [prometheus.Counter] and [prometheus.Gauge]. *)
Definition NewCounter (uint_unrepresentable : float64 -> Z) (opts : Opts) (p : Z)
    : FixedPrecisionCounter :=
  Counter.NewFixedPrecisionCounter uint_unrepresentable opts p.

Definition NewGauge (uint_unrepresentable : float64 -> Z) (opts : Opts) (p : Z)
    : FixedPrecisionGauge :=
  Gauge.NewFixedPrecisionGauge uint_unrepresentable opts p.

(** ** Method sets

    A method is named as in the source; it is exported when its name starts
    with an upper-case letter.  The method set of a struct pointer holds the
    methods declared on the type and, promoted, those of an embedded field
    that no declared method shadows. *)

Definition declared_on_gauge : list string :=
  ["Set"; "add"; "Inc"; "Dec"; "Add"; "Sub"; "Write"; "Value"; "Desc";
   "Describe"; "Collect"; "SetToCurrentTime"]%string.

Definition declared_on_counter : list string := ["Add"]%string.

Definition mem (m : string) (l : list string) : bool :=
  existsb (String.eqb m) l.

Definition promote (declared embedded : list string) : list string :=
  declared ++ filter (fun m => negb (mem m declared)) embedded.

Definition exported (m : string) : bool :=
  match m with
  | String c _ => let n := Ascii.nat_of_ascii c in (65 <=? n)%nat && (n <=? 90)%nat
  | EmptyString => false
  end.

Definition method_set_gauge : list string := filter exported declared_on_gauge.

Definition method_set_counter : list string :=
  filter exported (promote declared_on_counter declared_on_gauge).

(** ** Calls through the public interface of a counter *)

Inductive call : Type :=
| call_Set (v : float64)
| call_Inc
| call_Dec
| call_Add (v : float64)
| call_Sub (v : float64)
| call_Value
| call_Write (out : Metric)
| call_SetToCurrentTime (now : Z).

Definition method_of (c : call) : string :=
  match c with
  | call_Set _ => "Set"
  | call_Inc => "Inc"
  | call_Dec => "Dec"
  | call_Add _ => "Add"
  | call_Sub _ => "Sub"
  | call_Value => "Value"
  | call_Write _ => "Write"
  | call_SetToCurrentTime _ => "SetToCurrentTime"
  end.

Section Calls.

Variable int64_unrepresentable : float64 -> Z.

Definition on_gauge (fpc : FixedPrecisionCounter)
    (f : FixedPrecisionGauge -> FixedPrecisionGauge) : FixedPrecisionCounter * completion :=
  ({| gauge := f (gauge fpc) |}, Normal).

(** One call on a [*FixedPrecisionCounter]: [Add] is the counter's own
    method, every other selector resolves to the embedded gauge. *)
Definition counter_call (fpc : FixedPrecisionCounter) (c : call)
    : FixedPrecisionCounter * completion :=
  match c with
  | call_Add v => Counter.Add int64_unrepresentable fpc v
  | call_Set v => on_gauge fpc (fun g => Gauge.Set_ int64_unrepresentable g v)
  | call_Inc => on_gauge fpc Gauge.Inc
  | call_Dec => on_gauge fpc Gauge.Dec
  | call_Sub v => on_gauge fpc (fun g => Gauge.Sub int64_unrepresentable g v)
  | call_Value => on_gauge fpc (fun g => g)
  | call_Write out => on_gauge fpc (fun g => fst (fst (Gauge.Write g out)))
  | call_SetToCurrentTime now =>
      on_gauge fpc (fun g => Gauge.SetToCurrentTime int64_unrepresentable g now)
  end.

(** A sequence of calls; a panic ends it. *)
Fixpoint counter_calls (fpc : FixedPrecisionCounter) (cs : list call)
    : FixedPrecisionCounter * completion :=
  match cs with
  | [] => (fpc, Normal)
  | c :: rest =>
      match counter_call fpc c with
      | (fpc', Normal) => counter_calls fpc' rest
      | stopped => stopped
      end
  end.

Definition counter_Value (fpc : FixedPrecisionCounter) : float64 :=
  Gauge.Value (gauge fpc).

End Calls.

(** ** Concurrent callers

    A goroutine that calls [Inc] a number of times in a row is the count of
    calls it still has to make.  [Inc] touches the shared cell in one
    [atomic.AddInt64] (the scale factor it reads is never written after
    construction), so a step of the system is one pending [Inc] of one
    goroutine, chosen freely. *)

Record config : Type := {
  cell : FixedPrecisionGauge;
  pending : list N
}.

Inductive step : config -> config -> Prop :=
| step_Inc : forall g before k after,
    step {| cell := g; pending := before ++ N.succ k :: after |}
         {| cell := Gauge.Inc g; pending := before ++ k :: after |}.

Inductive steps : config -> config -> Prop :=
| steps_refl : forall c, steps c c
| steps_step : forall c1 c2 c3, step c1 c2 -> steps c2 c3 -> steps c1 c3.

Definition finished (c : config) : Prop := Forall (fun k => k = 0%N) (pending c).

(** [n] goroutines, [m] calls each, on one cell. *)
Definition spawn (g : FixedPrecisionGauge) (n : nat) (m : N) : config :=
  {| cell := g; pending := repeat m n |}.

Definition outstanding (l : list N) : Z :=
  fold_right (fun k acc => Z.of_N k + acc) 0 l.

(** ** Constants of the tests and of the specification *)

Definition test_opts : Opts :=
  {| Namespace := ""; Subsystem := ""; Name := "test"; Help := "test help";
     ConstLabels := [] |}.

(** [0.5], [42.3], [0.9999999999999999999], [0.9999999999999999999 * 3] (an
    exact constant product) and [-0.0015]. *)
Definition lit_0_5 : float64 := Float64.of_ratio 1 2.
Definition lit_42_3 : float64 := Float64.of_ratio 423 10.
Definition lit_0_9999999999999999999 : float64 :=
  Float64.of_ratio (10 ^ 19 - 1) (Z.to_pos (10 ^ 19)).
Definition lit_2_9999999999999999997 : float64 :=
  Float64.of_ratio (3 * (10 ^ 19 - 1)) (Z.to_pos (10 ^ 19)).
Definition lit_2_9999999999999999999 : float64 :=
  Float64.of_ratio (3 * 10 ^ 19 - 1) (Z.to_pos (10 ^ 19)).
Definition lit_minus_0_0015 : float64 := Float64.of_ratio (-15) 10000.

(** ** Predicates of the properties *)

(** Floats that are not below zero: the zeros, the positive ones and NaN. *)
Definition not_below_zero (x : float64) : Prop :=
  match x with
  | S754_zero _ | S754_nan => True
  | S754_infinity s | S754_finite s _ _ => s = false
  end.

(** The calls of the framework's counter capability: [Inc] and [Add], and
    the reads. *)
Definition counter_capability (c : call) : bool :=
  match c with
  | call_Inc | call_Add _ | call_Value | call_Write _ => true
  | _ => false
  end.

(** The counter as an observer finds it before the first call and after
    each call of a sequence, a panicking call included. *)
Fixpoint observed (conv : float64 -> Z) (fpc : FixedPrecisionCounter) (cs : list call)
    : list FixedPrecisionCounter :=
  fpc ::
  match cs with
  | [] => []
  | c :: rest =>
      match counter_call conv fpc c with
      | (fpc', Normal) => observed conv fpc' rest
      | (fpc', Panic _) => [fpc']
      end
  end.

(** The later observation is not below the earlier one: neither the raw
    value nor what [Value()] returns. *)
Definition not_lower (a b : FixedPrecisionCounter) : Prop :=
  val (gauge a) <= val (gauge b)
  /\ Float64.leb (counter_Value a) (counter_Value b) = true.

(** No call of the sequence leaves the int64 range: the scaled argument of
    an [Add] converts to an int64 and no sum exceeds the largest int64. *)
Fixpoint no_overflow (conv : float64 -> Z) (fpc : FixedPrecisionCounter) (cs : list call)
    : bool :=
  match cs with
  | [] => true
  | c :: rest =>
      let g := gauge fpc in
      match c with
      | call_Inc => val g + prec g <=? max_int64
      | call_Add v =>
          Float64.ltb v Float64.zero ||
          match Float64.trunc (Float64.mul v (Float64.of_Z (prec g))) with
          | Some d => in_int64 d && (val g + d <=? max_int64)
          | None => false
          end
      | _ => true
      end
      && match counter_call conv fpc c with
         | (fpc', Normal) => no_overflow conv fpc' rest
         | (_, Panic _) => true
         end
  end.

(** The scale factor is not 0 and fits an int64. *)
Definition scale_fits_int64 (g : FixedPrecisionGauge) : Prop :=
  1 <= prec g <= max_int64.

(** The scale factor fits an int64 and [float64] holds it exactly. *)
Definition exact_scale (g : FixedPrecisionGauge) : Prop :=
  0 <= prec g <= max_int64
  /\ Float64.trunc (Float64.of_Z (prec g)) = Some (prec g).

(** ** Rounding in the normal range *)

(** The four locations of a real between two mantissas, in order. *)
Definition loc_rank (l : location) : Z :=
  match l with
  | loc_Exact => 0
  | loc_Inexact Lt => 1
  | loc_Inexact Eq => 2
  | loc_Inexact Gt => 3
  end.

(** A mantissa with its rounding bits, ordered as the real it stands for. *)
Definition shr_le (a b : shr_record) : Prop :=
  shr_m a < shr_m b
  \/ (shr_m a = shr_m b /\ loc_rank (loc_of_shr_record a) <= loc_rank (loc_of_shr_record b)).

(** A float, or the infinity when the exponent is out of range. *)
Definition fin_or_inf (s : bool) (m : positive) (e : Z) : float64 :=
  if e <=? Float64.emax - Float64.mantissa_bits then S754_finite s m e else S754_infinity s.

(** The float of a rounded mantissa of 53 or 54 digits. *)
Definition pack (s : bool) (z : Z) (e : Z) : float64 :=
  match z with
  | Zpos p =>
      if Zpos (digits2_pos p) =? 53 then fin_or_inf s p e
      else fin_or_inf s (Pos.div2 p) (e + 1)
  | _ => S754_nan
  end.

(** The mantissa and its rounding bits after the first alignment. *)
Definition aligned (q : positive) (l : location) : shr_record :=
  fst (shr (shr_record_of_loc (Zpos q) l) 0 (Zpos (digits2_pos q) - 53)).

(** A rounded mantissa: 53 digits, or [2^53] after a carry. *)
Definition rounded (z : Z) : Prop :=
  exists p, z = Zpos p /\ 2 ^ 52 <= Zpos p <= 2 ^ 53.

(** A positive normal float: 53 digits of mantissa. *)
Definition normal_pos (x : float64) (lo hi : Z) : Prop :=
  exists m e, x = S754_finite false m e /\ Zpos (digits2_pos m) = 53 /\ lo <= e <= hi.

(** The quotient [N / m2] at exponent [E], rounded: what [SFdiv] computes
    once it has aligned its operands. *)
Definition quotient_at (m2 : positive) (N E : Z) : float64 :=
  let '(q, r) := Z.div_eucl N (Zpos m2) in
  binary_round_aux Float64.mantissa_bits Float64.emax false q E (new_location (Zpos m2) r).

(** [float64(v) / float64(p)], the value a cell with raw value [v] and
    scale factor [p] reports. *)
Definition value_at (p v : Z) : float64 :=
  Float64.div (Float64.of_Z v) (Float64.of_Z p).

(** ** Calls on a gauge, and predicates of the further properties *)

(** One call on a [*FixedPrecisionGauge]. *)
Definition gauge_call (conv : float64 -> Z) (g : FixedPrecisionGauge) (c : call)
    : FixedPrecisionGauge :=
  match c with
  | call_Set v => Gauge.Set_ conv g v
  | call_Inc => Gauge.Inc g
  | call_Dec => Gauge.Dec g
  | call_Add v => Gauge.Add conv g v
  | call_Sub v => Gauge.Sub conv g v
  | call_Value => g
  | call_Write out => fst (fst (Gauge.Write g out))
  | call_SetToCurrentTime now => Gauge.SetToCurrentTime conv g now
  end.

Definition gauge_calls (conv : float64 -> Z) (g : FixedPrecisionGauge) (cs : list call)
    : FixedPrecisionGauge :=
  fold_left (gauge_call conv) cs g.

(** The calls that add to the raw value, and the calls that only read. *)
Definition additive (c : call) : bool :=
  match c with
  | call_Inc | call_Dec | call_Add _ | call_Sub _ => true
  | _ => false
  end.

Definition is_read (c : call) : bool :=
  match c with
  | call_Value | call_Write _ => true
  | _ => false
  end.

(** [f] holds on every integer from [lo] to [hi]. *)
Definition all_between (lo hi : Z) (f : Z -> bool) : bool :=
  forallb (fun i => f (lo + Z.of_nat i)) (seq 0 (Z.to_nat (hi - lo + 1))).

(** What an additive call adds, given the scale factor. *)
Definition delta_of (conv : float64 -> Z) (p : Z) (c : call) : Z :=
  match c with
  | call_Inc => wrap_int64 (1 * wrap_int64 p)
  | call_Dec => wrap_int64 (-1 * wrap_int64 p)
  | call_Add v => int64_of_float conv (Float64.mul v (Float64.of_Z p))
  | call_Sub v =>
      int64_of_float conv (Float64.mul (Float64.mul v Float64.minus_one) (Float64.of_Z p))
  | _ => 0
  end.

(** [Pow10 n] is out of the range of [uint]. *)
Definition above_uint (n : Z) : bool :=
  match Float64.trunc (Pow10 n) with
  | Some z => negb (in_uint z)
  | None => true
  end.

(** [Pow10 n] has the integer part 0. *)
Definition below_one (n : Z) : bool :=
  match Float64.trunc (Pow10 n) with
  | Some z => z =? 0
  | None => false
  end.

(** An [Add] whose argument is below zero: the call that makes a counter
    panic. *)
Definition guarded (c : call) : bool :=
  match c with
  | call_Add v => Float64.ltb v Float64.zero
  | _ => false
  end.

(** A float that is a number: a zero or a finite value. *)
Definition is_finite (x : float64) : bool :=
  match x with
  | S754_zero _ | S754_finite _ _ _ => true
  | _ => false
  end.

(** * Properties *)

(** ** Machine integers *)

Lemma wrap_int64_id z : in_int64 z = true -> wrap_int64 z = z.
Proof.
  unfold in_int64, min_int64, max_int64, wrap_int64. intros H.
  apply andb_prop in H. destruct H as [Hlo Hhi].
  apply Z.leb_le in Hlo. apply Z.leb_le in Hhi.
  rewrite Z.mod_small; lia.
Qed.

Lemma wrap_int64_range z : in_int64 (wrap_int64 z) = true.
Proof.
  unfold in_int64, min_int64, max_int64, wrap_int64.
  pose proof (Z.mod_pos_bound (z + 2 ^ 63) (2 ^ 64) ltac:(lia)) as B.
  apply andb_true_intro. split; apply Z.leb_le; lia.
Qed.

Lemma wrap_int64_add_l a b : wrap_int64 (wrap_int64 a + b) = wrap_int64 (a + b).
Proof.
  unfold wrap_int64. f_equal.
  replace ((a + 2 ^ 63) mod 2 ^ 64 - 2 ^ 63 + b + 2 ^ 63)
    with ((a + 2 ^ 63) mod 2 ^ 64 + b) by lia.
  replace (a + b + 2 ^ 63) with (a + 2 ^ 63 + b) by lia.
  apply Z.add_mod_idemp_l. lia.
Qed.

Lemma wrap_int64_add_r a b : wrap_int64 (a + wrap_int64 b) = wrap_int64 (a + b).
Proof.
  rewrite (Z.add_comm a), wrap_int64_add_l. f_equal. lia.
Qed.

Lemma wrap_int64_congr z : (wrap_int64 z - z) mod 2 ^ 64 = 0.
Proof.
  unfold wrap_int64.
  replace ((z + 2 ^ 63) mod 2 ^ 64 - 2 ^ 63 - z)
    with ((z + 2 ^ 63) mod 2 ^ 64 - (z + 2 ^ 63)) by lia.
  rewrite Zminus_mod_idemp_l, Z.sub_diag. reflexivity.
Qed.

Lemma wrap_int64_half_turn z : wrap_int64 (z + min_int64) <> z.
Proof.
  intros E. pose proof (wrap_int64_congr (z + min_int64)) as C.
  rewrite E in C. unfold min_int64 in C.
  replace (z - (z + - 2 ^ 63)) with (2 ^ 63) in C by lia.
  discriminate C.
Qed.

(** ** float64 *)

Lemma binary_round_aux_sign p E m e l :
  not_below_zero (binary_round_aux p E false m e l).
Proof.
  unfold binary_round_aux.
  destruct (shr_fexp p E m e l) as [r1 e1].
  destruct (shr_fexp p E _ e1 loc_Exact) as [r2 e2].
  destruct (shr_m r2); [exact I | | exact I].
  destruct (e2 <=? E - p); reflexivity.
Qed.

Lemma of_Z_sign z : 0 <= z -> not_below_zero (Float64.of_Z z).
Proof.
  intros Hz. destruct z as [|q|q]; [exact I | | lia].
  unfold Float64.of_Z, binary_normalize, binary_round.
  destruct (shl_align _ _ _). apply binary_round_aux_sign.
Qed.

Lemma ltb_zero_sign v : Float64.ltb v Float64.zero = false -> not_below_zero v.
Proof.
  destruct v as [s|[|]| |[|] m e]; simpl; intros H;
    try exact I; try reflexivity; discriminate H.
Qed.

Lemma mul_sign x y :
  not_below_zero x -> not_below_zero y -> not_below_zero (Float64.mul x y).
Proof.
  destruct x as [sx|sx| |sx mx ex], y as [sy|sy| |sy my ey]; simpl;
    intros Hx Hy; subst; try exact I; try reflexivity.
  apply binary_round_aux_sign.
Qed.

Lemma trunc_sign x z : not_below_zero x -> Float64.trunc x = Some z -> 0 <= z.
Proof.
  destruct x as [s|s| |s m e]; simpl; intros Hx H; try discriminate H.
  - injection H as <-. lia.
  - subst s. injection H as <-.
    destruct e; [apply Z.shiftl_nonneg | apply Z.shiftl_nonneg | apply Z.shiftr_nonneg]; lia.
Qed.

Lemma digits2_times_2_52 m :
  Zpos (digits2_pos (4503599627370496 * m)) = Zpos (digits2_pos m) + 52.
Proof. cbn [Pos.mul digits2_pos]. lia. Qed.

Lemma shr_52_exact m :
  iter_pos shr_1 52
    {| shr_m := Zpos (4503599627370496 * m); shr_r := false; shr_s := false |}
  = {| shr_m := Zpos m; shr_r := false; shr_s := false |}.
Proof. cbn [Pos.mul iter_pos shr_1 orb]. reflexivity. Qed.

(** Multiplying a float by [-1.0] flips its sign and is exact. *)
Lemma mul_minus_one x :
  Float64.valid x = true -> Float64.mul x Float64.minus_one = Float64.neg x.
Proof.
  destruct x as [s|s| |s m e]; intros Hv;
    try reflexivity; try (destruct s; reflexivity).
  change Float64.minus_one with (S754_finite true 4503599627370496 (-52)).
  unfold Float64.mul, Float64.neg, SFmul, SFopp.
  unfold Float64.valid, valid_binary, bounded, canonical_mantissa in Hv.
  apply andb_prop in Hv. destruct Hv as [Hc He].
  apply Z.eqb_eq in Hc.
  rewrite Pos.mul_comm.
  unfold binary_round_aux, shr_fexp at 1.
  unfold Zdigits2. rewrite digits2_times_2_52.
  replace (fexp Float64.mantissa_bits Float64.emax
             (Z.pos (digits2_pos m) + 52 + (e + -52)) - (e + -52)) with 52.
  2:{ replace (Z.pos (digits2_pos m) + 52 + (e + -52))
        with (Z.pos (digits2_pos m) + e) by lia.
      rewrite Hc. lia. }
  unfold shr, shr_record_of_loc. rewrite shr_52_exact.
  cbn [shr_m loc_of_shr_record round_nearest_even].
  unfold shr_fexp, Zdigits2.
  replace (e + -52 + 52) with e by lia.
  rewrite Hc, Z.sub_diag. cbn [shr shr_record_of_loc shr_m].
  rewrite He. destruct s; reflexivity.
Qed.

(** The products [1.0 * x] and [-1.0 * x] are exact. *)
Lemma unit_mul (negate : bool) x :
  Float64.valid x = true ->
  Float64.mul (S754_finite negate 4503599627370496 (-52)) x
  = if negate then Float64.neg x else x.
Proof.
  destruct x as [s|s| |s m e]; intros Hv;
    try (destruct negate; reflexivity); try (destruct negate, s; reflexivity).
  unfold Float64.mul, Float64.neg, SFmul, SFopp.
  unfold Float64.valid, valid_binary, bounded, canonical_mantissa in Hv.
  apply andb_prop in Hv. destruct Hv as [Hc He].
  apply Z.eqb_eq in Hc.
  unfold binary_round_aux, shr_fexp at 1.
  unfold Zdigits2. rewrite digits2_times_2_52.
  replace (fexp Float64.mantissa_bits Float64.emax
             (Z.pos (digits2_pos m) + 52 + (-52 + e)) - (-52 + e)) with 52.
  2:{ replace (Z.pos (digits2_pos m) + 52 + (-52 + e))
        with (Z.pos (digits2_pos m) + e) by lia.
      rewrite Hc. lia. }
  unfold shr, shr_record_of_loc. rewrite shr_52_exact.
  cbn [shr_m loc_of_shr_record round_nearest_even].
  unfold shr_fexp, Zdigits2.
  replace (-52 + e + 52) with e by lia.
  rewrite Hc, Z.sub_diag. cbn [shr shr_record_of_loc shr_m].
  rewrite He. destruct negate, s; reflexivity.
Qed.

Lemma trunc_neg x z : Float64.trunc x = Some z -> Float64.trunc (Float64.neg x) = Some (- z).
Proof.
  destruct x as [s|s| |s m e]; cbn [Float64.trunc Float64.neg SFopp]; intros H;
    try discriminate H; injection H as <-; [reflexivity | ].
  destruct s; cbn [negb]; f_equal; lia.
Qed.

Lemma div_eucl_exact a b q : 0 < b -> a = q * b -> Z.div_eucl a b = (q, 0).
Proof.
  intros Hb ->.
  pose proof (Z.div_mul q b ltac:(lia)) as Hq.
  pose proof (Z.mod_mul q b ltac:(lia)) as Hr.
  unfold Z.div, Z.modulo in Hq, Hr.
  destruct (Z.div_eucl (q * b) b) as [q' r']. cbn [fst snd] in *. congruence.
Qed.

Lemma canonical_cases m e :
  canonical_mantissa Float64.mantissa_bits Float64.emax m e = true ->
  (e = -1074 /\ Zpos (digits2_pos m) <= 53) \/ (-1074 < e /\ Zpos (digits2_pos m) = 53).
Proof.
  unfold canonical_mantissa, fexp, emin, Float64.mantissa_bits, Float64.emax.
  intros H. apply Z.eqb_eq in H. lia.
Qed.

(** Dividing a float by [1.0] is exact. *)
Lemma div_one x :
  Float64.valid x = true -> Float64.div x Float64.one = x.
Proof.
  destruct x as [s|s| |s m e]; intros Hv;
    try reflexivity; try (destruct s; reflexivity).
  change Float64.one with (S754_finite false 4503599627370496 (-52)).
  unfold Float64.valid, valid_binary, bounded in Hv.
  apply andb_prop in Hv. destruct Hv as [Hc He].
  pose proof Hc as Hc'. unfold canonical_mantissa in Hc'. apply Z.eqb_eq in Hc'.
  unfold Float64.div, SFdiv, SFdiv_core_binary.
  change (Zdigits2 4503599627370496) with 53.
  cbn [Zdigits2].
  destruct (canonical_cases m e Hc) as [[E Hd] | [E Hd]].
  - (* smallest exponent *)
    subst e.
    replace (Z.min _ _) with (-1074)
      by (unfold fexp, emin, Float64.mantissa_bits, Float64.emax; lia).
    change (-1074 - -52 - -1074) with 52.
    rewrite (div_eucl_exact _ _ (Zpos m)); [ | lia | rewrite Z.shiftl_mul_pow2; lia].
    change (new_location 4503599627370496 0) with loc_Exact.
    unfold binary_round_aux, shr_fexp. cbn [Zdigits2].
    rewrite Hc', Z.sub_diag. cbn [shr shr_record_of_loc shr_m loc_of_shr_record round_nearest_even Zdigits2].
    rewrite Hc', Z.sub_diag. cbn [shr shr_record_of_loc shr_m].
    rewrite He. destruct s; reflexivity.
  - rewrite Hd.
    replace (Z.min _ _) with (e - 1)
      by (unfold fexp, emin, Float64.mantissa_bits, Float64.emax; lia).
    replace (e - -52 - (e - 1)) with 53 by lia.
    rewrite (div_eucl_exact _ _ (Zpos m~0)); [ | lia | rewrite Z.shiftl_mul_pow2; lia].
    change (new_location 4503599627370496 0) with loc_Exact.
    unfold binary_round_aux, shr_fexp at 1. cbn [Zdigits2 digits2_pos].
    replace (fexp Float64.mantissa_bits Float64.emax
               (Z.pos (Pos.succ (digits2_pos m)) + (e - 1)) - (e - 1)) with 1
      by (unfold fexp, emin, Float64.mantissa_bits, Float64.emax; lia).
    cbn [shr shr_record_of_loc iter_pos shr_1 orb shr_m loc_of_shr_record round_nearest_even].
    unfold shr_fexp. cbn [Zdigits2].
    replace (e - 1 + 1) with e by lia.
    rewrite Hc', Z.sub_diag. cbn [shr shr_record_of_loc shr_m].
    rewrite He. destruct s; reflexivity.
Qed.

Lemma digits2_iter_xO p k :
  Zpos (digits2_pos (Pos.iter xO p k)) = Zpos (digits2_pos p) + Zpos k.
Proof.
  induction k as [|k IH] using Pos.peano_ind.
  - cbn [Pos.iter digits2_pos]. lia.
  - rewrite Pos.iter_succ. cbn [digits2_pos]. lia.
Qed.

Lemma digits2_succ p :
  Zpos (digits2_pos (Pos.succ p)) = Zpos (digits2_pos p)
  \/ Zpos (digits2_pos (Pos.succ p)) = Zpos (digits2_pos p) + 1.
Proof.
  induction p as [p IH | p IH | ]; cbn [Pos.succ digits2_pos]; lia.
Qed.

(** Shifting a mantissa right by fewer places than it has digits leaves
    that many digits less. *)
Lemma shr_digits n :
  forall p r s,
    Zpos n < Zpos (digits2_pos p) ->
    exists p1 r1 s1,
      iter_pos shr_1 n {| shr_m := Zpos p; shr_r := r; shr_s := s |}
      = {| shr_m := Zpos p1; shr_r := r1; shr_s := s1 |}
      /\ Zpos (digits2_pos p1) = Zpos (digits2_pos p) - Zpos n.
Proof.
  assert (One : forall p r s, 1 < Zpos (digits2_pos p) ->
            exists p1 r1 s1,
              shr_1 {| shr_m := Zpos p; shr_r := r; shr_s := s |}
              = {| shr_m := Zpos p1; shr_r := r1; shr_s := s1 |}
              /\ Zpos (digits2_pos p1) = Zpos (digits2_pos p) - 1).
  { intros [p | p | ] r s H; cbn [digits2_pos] in *; try lia;
      do 3 eexists; (split; [reflexivity | lia]). }
  induction n as [n IH | n IH | ]; intros p r s Hn; cbn [iter_pos].
  - destruct (One p r s ltac:(lia)) as (p0 & r0 & s0 & E0 & D0). rewrite E0.
    destruct (IH p0 r0 s0 ltac:(lia)) as (p1 & r1 & s1 & E1 & D1). rewrite E1.
    destruct (IH p1 r1 s1 ltac:(lia)) as (p2 & r2 & s2 & E2 & D2). rewrite E2.
    do 3 eexists. split; [reflexivity | lia].
  - destruct (IH p r s ltac:(lia)) as (p1 & r1 & s1 & E1 & D1). rewrite E1.
    destruct (IH p1 r1 s1 ltac:(lia)) as (p2 & r2 & s2 & E2 & D2). rewrite E2.
    do 3 eexists. split; [reflexivity | lia].
  - apply One. lia.
Qed.

Lemma round_nearest_even_digits p l :
  exists p', round_nearest_even (Zpos p) l = Zpos p'
    /\ (Zpos (digits2_pos p') = Zpos (digits2_pos p)
        \/ Zpos (digits2_pos p') = Zpos (digits2_pos p) + 1).
Proof.
  assert (Up : exists p', Zpos p + 1 = Zpos p'
                 /\ (Zpos (digits2_pos p') = Zpos (digits2_pos p)
                     \/ Zpos (digits2_pos p') = Zpos (digits2_pos p) + 1)).
  { exists (Pos.succ p). split; [lia | apply digits2_succ]. }
  assert (Same : exists p', Zpos p = Zpos p'
                 /\ (Zpos (digits2_pos p') = Zpos (digits2_pos p)
                     \/ Zpos (digits2_pos p') = Zpos (digits2_pos p) + 1)).
  { exists p. split; [reflexivity | left; reflexivity]. }
  destruct l as [|[| |]]; cbn [round_nearest_even]; try exact Same; try exact Up.
  destruct (Z.even (Zpos p)); [exact Same | exact Up].
Qed.

Lemma finite_valid s m e :
  Zpos (digits2_pos m) = 53 -> -1074 <= e ->
  Float64.valid (if e <=? Float64.emax - Float64.mantissa_bits
                 then S754_finite s m e else S754_infinity s) = true.
Proof.
  intros Hd He. destruct (e <=? Float64.emax - Float64.mantissa_bits) eqn:E; [ | reflexivity].
  unfold Float64.valid, valid_binary, bounded, canonical_mantissa. rewrite E, Hd.
  apply andb_true_intro. split; [ | reflexivity].
  apply Z.eqb_eq. unfold fexp, emin, Float64.mantissa_bits, Float64.emax. lia.
Qed.

Lemma binary_round_aux_valid s q e l :
  53 <= Zpos (digits2_pos q) ->
  -1074 <= Zpos (digits2_pos q) + e - 53 ->
  Float64.valid (binary_round_aux Float64.mantissa_bits Float64.emax s (Zpos q) e l) = true.
Proof.
  intros Hd He.
  assert (First : exists p1 r1 s1 e1,
            shr_fexp Float64.mantissa_bits Float64.emax (Zpos q) e l
            = ({| shr_m := Zpos p1; shr_r := r1; shr_s := s1 |}, e1)
            /\ Zpos (digits2_pos p1) = 53 /\ -1074 <= e1).
  { unfold shr_fexp. cbn [Zdigits2].
    replace (fexp Float64.mantissa_bits Float64.emax (Z.pos (digits2_pos q) + e) - e)
      with (Zpos (digits2_pos q) - 53)
      by (unfold fexp, emin, Float64.mantissa_bits, Float64.emax; lia).
    destruct (Zpos (digits2_pos q) - 53) as [|n|n] eqn:En; try lia.
    - cbn [shr]. destruct l as [|[| |]]; cbn [shr_record_of_loc];
        do 4 eexists; (split; [reflexivity | lia]).
    - cbn [shr].
      assert (R : exists r s, shr_record_of_loc (Zpos q) l
                              = {| shr_m := Zpos q; shr_r := r; shr_s := s |}).
      { destruct l as [|[| |]]; cbn [shr_record_of_loc]; do 2 eexists; reflexivity. }
      destruct R as (r & s0 & ->).
      destruct (shr_digits n q r s0 ltac:(lia)) as (p1 & r1 & s1 & E1 & D1).
      rewrite E1. do 4 eexists. split; [reflexivity | lia]. }
  destruct First as (p1 & r1 & s1 & e1 & E1 & D1 & B1).
  unfold binary_round_aux. rewrite E1. cbn [shr_m].
  destruct (round_nearest_even_digits p1 (loc_of_shr_record
              {| shr_m := Zpos p1; shr_r := r1; shr_s := s1 |})) as (p2 & E2 & D2).
  rewrite E2. unfold shr_fexp. cbn [Zdigits2 shr_record_of_loc].
  destruct D2 as [D2 | D2].
  - replace (fexp Float64.mantissa_bits Float64.emax (Z.pos (digits2_pos p2) + e1) - e1)
      with 0 by (unfold fexp, emin, Float64.mantissa_bits, Float64.emax; lia).
    cbn [shr shr_m]. apply finite_valid; lia.
  - replace (fexp Float64.mantissa_bits Float64.emax (Z.pos (digits2_pos p2) + e1) - e1)
      with 1 by (unfold fexp, emin, Float64.mantissa_bits, Float64.emax; lia).
    cbn [shr].
    destruct (shr_digits 1 p2 false false ltac:(lia)) as (p3 & r3 & s3 & E3 & D3).
    rewrite E3. cbn [shr_m]. apply finite_valid; lia.
Qed.

Lemma binary_round_valid s p :
  Float64.valid (binary_round Float64.mantissa_bits Float64.emax s p 0) = true.
Proof.
  unfold binary_round, shl_align.
  replace (fexp Float64.mantissa_bits Float64.emax (Z.pos (digits2_pos p) + 0) - 0)
    with (Zpos (digits2_pos p) - 53)
    by (unfold fexp, emin, Float64.mantissa_bits, Float64.emax; lia).
  destruct (Zpos (digits2_pos p) - 53) as [|n|n] eqn:En.
  - apply binary_round_aux_valid; lia.
  - apply binary_round_aux_valid; lia.
  - replace (fexp Float64.mantissa_bits Float64.emax (Z.pos (digits2_pos p) + 0))
      with (Zpos (digits2_pos p) - 53)
      by (unfold fexp, emin, Float64.mantissa_bits, Float64.emax; lia).
    apply binary_round_aux_valid; rewrite digits2_iter_xO; lia.
Qed.

(** [float64(z)] is a float64 value, for every integer [z]. *)
Lemma of_Z_valid z : Float64.valid (Float64.of_Z z) = true.
Proof.
  destruct z as [|p|p]; [reflexivity | | ]; apply binary_round_valid.
Qed.

(** *** Rounding is monotone *)

Lemma shr_1_mono a b :
  0 <= shr_m a -> shr_le a b -> shr_le (shr_1 a) (shr_1 b) /\ 0 <= shr_m (shr_1 a).
Proof.
  destruct a as [ma ra sa], b as [mb rb sb]. unfold shr_le. cbn [shr_m].
  intros H0 H.
  destruct ma as [|[pa|pa|]|pa]; try lia;
  destruct mb as [|[pb|pb|]|pb]; try lia;
  destruct ra, sa, rb, sb; cbn [shr_1 shr_m orb loc_of_shr_record loc_rank] in *; lia.
Qed.

Lemma iter_shr_1_mono n :
  forall a b, 0 <= shr_m a -> shr_le a b ->
    shr_le (iter_pos shr_1 n a) (iter_pos shr_1 n b) /\ 0 <= shr_m (iter_pos shr_1 n a).
Proof.
  induction n as [n IH | n IH | ]; intros a b H0 H; cbn [iter_pos].
  - destruct (shr_1_mono a b H0 H) as [H1 H1'].
    destruct (IH _ _ H1' H1) as [H2 H2'].
    apply (IH _ _ H2' H2).
  - destruct (IH _ _ H0 H) as [H2 H2'].
    apply (IH _ _ H2' H2).
  - apply shr_1_mono; assumption.
Qed.

Lemma round_nearest_even_mono a b :
  shr_le a b ->
  round_nearest_even (shr_m a) (loc_of_shr_record a)
  <= round_nearest_even (shr_m b) (loc_of_shr_record b).
Proof.
  unfold shr_le. intros H.
  assert (Lo : forall m l, m <= round_nearest_even m l <= m + 1).
  { intros m l. destruct l as [|[| |]]; cbn [round_nearest_even]; try lia.
    destruct (Z.even m); lia. }
  destruct H as [H | [E H]].
  - pose proof (Lo (shr_m a) (loc_of_shr_record a)).
    pose proof (Lo (shr_m b) (loc_of_shr_record b)). lia.
  - rewrite E.
    destruct (loc_of_shr_record a) as [|[| |]], (loc_of_shr_record b) as [|[| |]];
      cbn [loc_rank round_nearest_even] in *; try lia; destruct (Z.even (shr_m b)); lia.
Qed.

Lemma digits2_bounds p :
  2 ^ (Zpos (digits2_pos p) - 1) <= Zpos p < 2 ^ Zpos (digits2_pos p).
Proof.
  induction p as [p IH | p IH | ]; cbn [digits2_pos]; [ | | cbn; lia].
  - rewrite Pos2Z.inj_succ.
    replace (Z.succ (Zpos (digits2_pos p)) - 1) with (Z.succ (Zpos (digits2_pos p) - 1)) by lia.
    rewrite !Z.pow_succ_r by lia. lia.
  - rewrite Pos2Z.inj_succ.
    replace (Z.succ (Zpos (digits2_pos p)) - 1) with (Z.succ (Zpos (digits2_pos p) - 1)) by lia.
    rewrite !Z.pow_succ_r by lia. lia.
Qed.

Lemma digits2_mono p q : Zpos p <= Zpos q -> Zpos (digits2_pos p) <= Zpos (digits2_pos q).
Proof.
  intros H. destruct (Z.le_gt_cases (Zpos (digits2_pos p)) (Zpos (digits2_pos q))) as [L | G];
    [exact L | exfalso].
  pose proof (digits2_bounds p) as [Bp _]. pose proof (digits2_bounds q) as [_ Bq].
  assert (2 ^ Zpos (digits2_pos q) <= 2 ^ (Zpos (digits2_pos p) - 1))
    by (apply Z.pow_le_mono_r; lia).
  lia.
Qed.

Lemma loc_of_record_of m l : loc_of_shr_record (shr_record_of_loc m l) = l.
Proof. destruct l as [|[| |]]; reflexivity. Qed.

Lemma shr_m_record_of m l : shr_m (shr_record_of_loc m l) = m.
Proof. destruct l as [|[| |]]; reflexivity. Qed.

Lemma aligned_digits q l :
  53 <= Zpos (digits2_pos q) ->
  exists p1, shr_m (aligned q l) = Zpos p1 /\ Zpos (digits2_pos p1) = 53.
Proof.
  intros Hd. unfold aligned.
  destruct (Zpos (digits2_pos q) - 53) as [|n|n] eqn:En; try lia; cbn [shr fst].
  - exists q. rewrite shr_m_record_of. split; [reflexivity | lia].
  - assert (R : exists r s, shr_record_of_loc (Zpos q) l
                            = {| shr_m := Zpos q; shr_r := r; shr_s := s |}).
    { destruct l as [|[| |]]; cbn [shr_record_of_loc]; do 2 eexists; reflexivity. }
    destruct R as (r & s0 & ->).
    destruct (shr_digits n q r s0 ltac:(lia)) as (p1 & r1 & s1 & E1 & D1).
    rewrite E1. exists p1. split; [reflexivity | lia].
Qed.

(** In the normal range [binary_round_aux] aligns to 53 digits, rounds, and
    drops one more digit when rounding carried into a 54th. *)
Lemma binary_round_aux_normal s q e l :
  53 <= Zpos (digits2_pos q) -> -1074 <= e ->
  binary_round_aux Float64.mantissa_bits Float64.emax s (Zpos q) e l
  = pack s (round_nearest_even (shr_m (aligned q l)) (loc_of_shr_record (aligned q l)))
         (e + (Zpos (digits2_pos q) - 53)).
Proof.
  intros Hd He.
  destruct (aligned_digits q l Hd) as (p1 & E1 & D1).
  unfold binary_round_aux, shr_fexp. cbn [Zdigits2].
  replace (fexp Float64.mantissa_bits Float64.emax (Z.pos (digits2_pos q) + e) - e)
    with (Zpos (digits2_pos q) - 53)
    by (unfold fexp, emin, Float64.mantissa_bits, Float64.emax; lia).
  assert (Sh : shr (shr_record_of_loc (Zpos q) l) e (Zpos (digits2_pos q) - 53)
               = (aligned q l, e + (Zpos (digits2_pos q) - 53))).
  { unfold aligned. destruct (Zpos (digits2_pos q) - 53) as [|n|n] eqn:En; cbn [shr fst];
      try reflexivity; try lia; f_equal; lia. }
  rewrite Sh.
  destruct (round_nearest_even_digits p1 (loc_of_shr_record (aligned q l))) as (p2 & E2 & D2).
  rewrite E1, E2. cbn [Zdigits2 pack shr_record_of_loc].
  set (e1 := e + (Zpos (digits2_pos q) - 53)).
  destruct D2 as [D2 | D2].
  - replace (fexp Float64.mantissa_bits Float64.emax (Z.pos (digits2_pos p2) + e1) - e1)
      with 0 by (unfold fexp, emin, Float64.mantissa_bits, Float64.emax; lia).
    cbn [shr shr_m]. rewrite D2, D1. reflexivity.
  - replace (fexp Float64.mantissa_bits Float64.emax (Z.pos (digits2_pos p2) + e1) - e1)
      with 1 by (unfold fexp, emin, Float64.mantissa_bits, Float64.emax; lia).
    replace (Zpos (digits2_pos p2) =? 53) with false by (symmetry; apply Z.eqb_neq; lia).
    cbn [shr iter_pos].
    destruct p2 as [p2 | p2 | ]; cbn [digits2_pos] in D2; try lia;
      cbn [shr_1 shr_m Pos.div2]; reflexivity.
Qed.

Lemma leb_finite_lex m1 e1 m2 e2 :
  e1 < e2 \/ (e1 = e2 /\ Zpos m1 <= Zpos m2) ->
  Float64.leb (S754_finite false m1 e1) (S754_finite false m2 e2) = true.
Proof.
  unfold Float64.leb, SFleb, SFcompare. intros [H | [-> H]].
  - apply Z.compare_lt_iff in H. rewrite H. reflexivity.
  - rewrite Z.compare_refl.
    change (Pos.compare_cont Eq m1 m2) with (Pos.compare m1 m2).
    destruct (Pos.compare m1 m2) eqn:C; try reflexivity.
    apply Pos.compare_gt_iff in C. lia.
Qed.

Lemma fin_or_inf_le m1 e1 m2 e2 :
  e1 < e2 \/ (e1 = e2 /\ Zpos m1 <= Zpos m2) ->
  Float64.leb (fin_or_inf false m1 e1) (fin_or_inf false m2 e2) = true.
Proof.
  intros H. unfold fin_or_inf.
  destruct (e1 <=? Float64.emax - Float64.mantissa_bits) eqn:L1,
           (e2 <=? Float64.emax - Float64.mantissa_bits) eqn:L2; try reflexivity.
  - apply leb_finite_lex, H.
  - apply Z.leb_gt in L1. apply Z.leb_le in L2. lia.
Qed.

Lemma rounded_digits p :
  2 ^ 52 <= Zpos p <= 2 ^ 53 ->
  (Zpos (digits2_pos p) = 53 /\ Zpos p < 2 ^ 53)
  \/ (Zpos (digits2_pos p) = 54 /\ Zpos p = 2 ^ 53).
Proof.
  intros [Lo Hi]. pose proof (digits2_bounds p) as [B1 B2].
  destruct (Z.lt_trichotomy (Zpos (digits2_pos p)) 53) as [L | [E | G]].
  - assert (2 ^ Zpos (digits2_pos p) <= 2 ^ 52) by (apply Z.pow_le_mono_r; lia). lia.
  - left. rewrite E in B2. lia.
  - assert (2 ^ 53 <= 2 ^ (Zpos (digits2_pos p) - 1)) by (apply Z.pow_le_mono_r; lia).
    right. assert (Zpos p = 2 ^ 53) by lia. split; [ | assumption].
    destruct (Z.eq_dec (Zpos (digits2_pos p)) 54) as [E | N]; [exact E | exfalso].
    assert (2 ^ 54 <= 2 ^ (Zpos (digits2_pos p) - 1)) by (apply Z.pow_le_mono_r; lia). lia.
Qed.

Lemma div2_double p : 1 < Zpos p -> 2 * Zpos (Pos.div2 p) <= Zpos p <= 2 * Zpos (Pos.div2 p) + 1.
Proof. destruct p; cbn [Pos.div2]; lia. Qed.

Lemma pack_le z1 e1 z2 e2 :
  rounded z1 -> rounded z2 ->
  e1 < e2 \/ (e1 = e2 /\ z1 <= z2) ->
  Float64.leb (pack false z1 e1) (pack false z2 e2) = true.
Proof.
  intros (p1 & -> & R1) (p2 & -> & R2) H. cbn [pack].
  pose proof (div2_double p1 ltac:(lia)) as V1.
  pose proof (div2_double p2 ltac:(lia)) as V2.
  destruct (rounded_digits p1 R1) as [[D1 B1] | [D1 B1]],
           (rounded_digits p2 R2) as [[D2 B2] | [D2 B2]];
    rewrite D1, D2; cbn [Z.eqb Pos.eqb]; apply fin_or_inf_le; lia.
Qed.

Lemma aligned_rounded q l :
  53 <= Zpos (digits2_pos q) ->
  rounded (round_nearest_even (shr_m (aligned q l)) (loc_of_shr_record (aligned q l))).
Proof.
  intros Hd. destruct (aligned_digits q l Hd) as (p1 & E1 & D1).
  destruct (round_nearest_even_digits p1 (loc_of_shr_record (aligned q l))) as (p2 & E2 & D2).
  rewrite E1, E2. exists p2. split; [reflexivity | ].
  assert (Zpos p1 <= Zpos p2 <= Zpos p1 + 1).
  { rewrite <- E2. destruct (loc_of_shr_record (aligned q l)) as [|[| |]];
      cbn [round_nearest_even]; try lia. destruct (Z.even (Zpos p1)); lia. }
  pose proof (digits2_bounds p1) as B. rewrite D1 in B. change (53 - 1) with 52 in B. lia.
Qed.

Lemma aligned_mono q1 l1 q2 l2 :
  Zpos (digits2_pos q1) = Zpos (digits2_pos q2) ->
  shr_le (shr_record_of_loc (Zpos q1) l1) (shr_record_of_loc (Zpos q2) l2) ->
  shr_le (aligned q1 l1) (aligned q2 l2).
Proof.
  intros Ed H. unfold aligned. rewrite Ed.
  destruct (Zpos (digits2_pos q2) - 53) as [|n|n]; cbn [shr fst]; try exact H.
  apply iter_shr_1_mono; [rewrite shr_m_record_of; lia | exact H].
Qed.

(** Rounding is monotone: at one exponent, the larger located mantissa
    rounds to the larger float. *)
Lemma binary_round_aux_mono q1 l1 q2 l2 e :
  53 <= Zpos (digits2_pos q1) -> -1074 <= e ->
  shr_le (shr_record_of_loc (Zpos q1) l1) (shr_record_of_loc (Zpos q2) l2) ->
  Float64.leb (binary_round_aux Float64.mantissa_bits Float64.emax false (Zpos q1) e l1)
              (binary_round_aux Float64.mantissa_bits Float64.emax false (Zpos q2) e l2)
  = true.
Proof.
  intros Hd He H.
  assert (Hq : Zpos q1 <= Zpos q2).
  { unfold shr_le in H. rewrite !shr_m_record_of in H. lia. }
  pose proof (digits2_mono _ _ Hq) as Hdd.
  rewrite !binary_round_aux_normal by lia.
  apply pack_le; try (apply aligned_rounded; lia).
  destruct (Z.eq_dec (Zpos (digits2_pos q1)) (Zpos (digits2_pos q2))) as [Ed | Nd].
  - right. split; [lia | ].
    apply round_nearest_even_mono, aligned_mono; assumption.
  - left. lia.
Qed.

Lemma pack_normal z e :
  rounded z -> e + 1 <= 971 -> normal_pos (pack false z e) e (e + 1).
Proof.
  intros (p & -> & R) He. cbn [pack]. unfold fin_or_inf.
  change (Float64.emax - Float64.mantissa_bits) with 971.
  destruct (rounded_digits p R) as [[D B] | [D B]]; rewrite D; cbn [Z.eqb Pos.eqb].
  - replace (e <=? 971) with true by (symmetry; apply Z.leb_le; lia).
    exists p, e. repeat split; [exact D | lia | lia].
  - replace (e + 1 <=? 971) with true by (symmetry; apply Z.leb_le; lia).
    exists (Pos.div2 p), (e + 1). repeat split; try lia.
    destruct p as [p | p | ]; cbn [digits2_pos Pos.div2] in *; lia.
Qed.

Lemma iter_xO_value p k : Zpos (Pos.iter xO p k) = Zpos p * 2 ^ Zpos k.
Proof.
  induction k as [|k IH] using Pos.peano_ind.
  - cbn [Pos.iter]. lia.
  - rewrite Pos.iter_succ, Pos2Z.inj_xO, IH, Pos2Z.inj_succ, Z.pow_succ_r by lia. lia.
Qed.

(** [float64] of a positive integer, in the two cases of [binary_round]:
    up to 53 digits the integer is kept, shifted to 53 digits; above, it is
    rounded at exponent 0. *)
Lemma of_Z_small p :
  Zpos (digits2_pos p) < 53 ->
  exists k, Zpos k = 53 - Zpos (digits2_pos p)
    /\ Float64.of_Z (Zpos p) = S754_finite false (Pos.iter xO p k) (Zpos (digits2_pos p) - 53).
Proof.
  intros Hd. unfold Float64.of_Z, binary_normalize, binary_round, shl_align.
  replace (fexp Float64.mantissa_bits Float64.emax (Z.pos (digits2_pos p) + 0))
    with (Zpos (digits2_pos p) - 53)
    by (unfold fexp, emin, Float64.mantissa_bits, Float64.emax; lia).
  destruct (Zpos (digits2_pos p) - 53 - 0) as [|k|k] eqn:Ek; try lia.
  exists k. split; [lia | ].
  pose proof (digits2_iter_xO p k) as Dk.
  rewrite binary_round_aux_normal by lia.
  unfold aligned. replace (Zpos (digits2_pos (Pos.iter xO p k)) - 53) with 0 by lia.
  cbn [shr fst shr_record_of_loc shr_m loc_of_shr_record round_nearest_even pack].
  replace (Zpos (digits2_pos (Pos.iter xO p k)) =? 53) with true
    by (symmetry; apply Z.eqb_eq; lia).
  unfold fin_or_inf.
  replace (_ <=? _) with true
    by (symmetry; apply Z.leb_le; unfold Float64.emax, Float64.mantissa_bits; lia).
  f_equal. lia.
Qed.

Lemma of_Z_large p :
  53 <= Zpos (digits2_pos p) ->
  Float64.of_Z (Zpos p)
  = binary_round_aux Float64.mantissa_bits Float64.emax false (Zpos p) 0 loc_Exact.
Proof.
  intros Hd. unfold Float64.of_Z, binary_normalize, binary_round, shl_align.
  replace (fexp Float64.mantissa_bits Float64.emax (Z.pos (digits2_pos p) + 0))
    with (Zpos (digits2_pos p) - 53)
    by (unfold fexp, emin, Float64.mantissa_bits, Float64.emax; lia).
  destruct (Zpos (digits2_pos p) - 53 - 0) as [|k|k] eqn:Ek; try lia; reflexivity.
Qed.

Lemma of_Z_normal p :
  Zpos p < 2 ^ 64 -> normal_pos (Float64.of_Z (Zpos p)) (-52) 12.
Proof.
  intros Hp.
  assert (Hd : Zpos (digits2_pos p) <= 64).
  { pose proof (digits2_bounds p) as [B _].
    destruct (Z.le_gt_cases (Zpos (digits2_pos p)) 64) as [L | G]; [exact L | exfalso].
    assert (2 ^ 64 <= 2 ^ (Zpos (digits2_pos p) - 1)) by (apply Z.pow_le_mono_r; lia). lia. }
  destruct (Z.lt_ge_cases (Zpos (digits2_pos p)) 53) as [S | L].
  - destruct (of_Z_small p S) as (k & Ek & ->).
    exists (Pos.iter xO p k), (Zpos (digits2_pos p) - 53).
    repeat split; [rewrite digits2_iter_xO; lia | lia | lia].
  - rewrite (of_Z_large p L), binary_round_aux_normal by lia.
    destruct (pack_normal _ (0 + (Zpos (digits2_pos p) - 53)) (aligned_rounded p loc_Exact L)
                ltac:(lia)) as (m & e & E & D & B).
    exists m, e. repeat split; [exact E | exact D | lia | lia].
Qed.

(** [float64] is monotone on the positive integers. *)
Lemma of_Z_mono_pos p q :
  Zpos p <= Zpos q -> Zpos q < 2 ^ 64 ->
  Float64.leb (Float64.of_Z (Zpos p)) (Float64.of_Z (Zpos q)) = true.
Proof.
  intros Hpq Hq. pose proof (digits2_mono _ _ Hpq) as Hd.
  destruct (Z.lt_ge_cases (Zpos (digits2_pos p)) 53) as [Sp | Lp].
  - destruct (of_Z_small p Sp) as (k & Ek & ->).
    destruct (Z.lt_ge_cases (Zpos (digits2_pos q)) 53) as [Sq | Lq].
    + destruct (of_Z_small q Sq) as (k' & Ek' & ->).
      apply leb_finite_lex.
      destruct (Z.eq_dec (Zpos (digits2_pos p)) (Zpos (digits2_pos q))) as [E | N];
        [right | left; lia].
      split; [lia | ]. rewrite !iter_xO_value.
      replace (Zpos k') with (Zpos k) by lia.
      apply Z.mul_le_mono_nonneg_r; [apply Z.pow_nonneg | ]; lia.
    + rewrite (of_Z_large q Lq), binary_round_aux_normal by lia.
      destruct (pack_normal _ (0 + (Zpos (digits2_pos q) - 53)) (aligned_rounded q loc_Exact Lq))
        as (m & e & -> & D & B).
      { pose proof (digits2_bounds q) as [B _].
        destruct (Z.le_gt_cases (Zpos (digits2_pos q)) 64) as [L | G]; [lia | exfalso].
        assert (2 ^ 64 <= 2 ^ (Zpos (digits2_pos q) - 1)) by (apply Z.pow_le_mono_r; lia).
        lia. }
      apply leb_finite_lex. left. lia.
  - rewrite (of_Z_large p Lp), (of_Z_large q ltac:(lia)).
    apply binary_round_aux_mono; [exact Lp | lia | ].
    unfold shr_le. cbn [shr_record_of_loc shr_m loc_of_shr_record loc_rank]. lia.
Qed.

Lemma div_eucl_pair a b : Z.div_eucl a b = (a / b, a mod b).
Proof. unfold Z.div, Z.modulo. destruct (Z.div_eucl a b); reflexivity. Qed.

Lemma div_as_quotient m1 e1 m2 e2 :
  Zpos (digits2_pos m1) = 53 -> Zpos (digits2_pos m2) = 53 ->
  -1074 <= e1 - e2 - 53 ->
  Float64.div (S754_finite false m1 e1) (S754_finite false m2 e2)
  = quotient_at m2 (Zpos m1 * 2 ^ 53) (e1 - e2 - 53).
Proof.
  intros D1 D2 He. unfold Float64.div, SFdiv, SFdiv_core_binary, quotient_at.
  cbn [Zdigits2 xorb]. rewrite D1, D2.
  replace (Z.min (fexp Float64.mantissa_bits Float64.emax (53 + e1 - (53 + e2))) (e1 - e2))
    with (e1 - e2 - 53)
    by (unfold fexp, emin, Float64.mantissa_bits, Float64.emax; lia).
  replace (e1 - e2 - (e1 - e2 - 53)) with 53 by lia.
  rewrite Z.shiftl_mul_pow2 by lia.
  destruct (Z.div_eucl (Zpos m1 * 2 ^ 53) (Zpos m2)) as [q r]. reflexivity.
Qed.

Lemma iter_pos_comm {A} (f : A -> A) n : forall x, iter_pos f n (f x) = f (iter_pos f n x).
Proof.
  induction n as [n IH | n IH | ]; intros x; cbn [iter_pos]; [ | | reflexivity].
  - rewrite !IH. reflexivity.
  - rewrite !IH. reflexivity.
Qed.

Lemma iter_pos_succ {A} (f : A -> A) n x : iter_pos f (Pos.succ n) x = iter_pos f n (f x).
Proof.
  revert x. induction n as [n IH | n IH | ]; intros x; cbn [Pos.succ iter_pos];
    [ | reflexivity | reflexivity].
  rewrite !IH, <- (iter_pos_comm f n (f x)). reflexivity.
Qed.

Lemma shr_one_more R n :
  0 <= n -> fst (shr R 0 (n + 1)) = fst (shr (shr_1 R) 0 n).
Proof.
  intros Hn. destruct n as [|k|k]; try lia.
  - reflexivity.
  - change (Zpos k + 1) with (Zpos (k + 1)). cbn [shr fst].
    rewrite Pos.add_1_r. apply iter_pos_succ.
Qed.

Lemma new_location_cases m r :
  0 < m -> 0 <= r < m ->
  new_location m r
  = if r =? 0 then loc_Exact
    else if 2 * r <? m then loc_Inexact Lt
    else if 2 * r =? m then loc_Inexact Eq
    else loc_Inexact Gt.
Proof.
  intros Hm Hr. unfold new_location, new_location_even, new_location_odd.
  destruct (Z.even m) eqn:Ev; destruct (r =? 0) eqn:E0; try reflexivity.
  - destruct (Z.compare_spec (2 * r) m) as [C | C | C].
    + replace (2 * r <? m) with false by (symmetry; apply Z.ltb_ge; lia).
      replace (2 * r =? m) with true by (symmetry; apply Z.eqb_eq; lia). reflexivity.
    + replace (2 * r <? m) with true by (symmetry; apply Z.ltb_lt; lia). reflexivity.
    + replace (2 * r <? m) with false by (symmetry; apply Z.ltb_ge; lia).
      replace (2 * r =? m) with false by (symmetry; apply Z.eqb_neq; lia). reflexivity.
  - assert (Odd : 2 * r <> m).
    { intros <-. rewrite Z.even_mul in Ev. discriminate Ev. }
    destruct (Z.compare_spec (2 * r + 1) m) as [C | C | C].
    + replace (2 * r <? m) with true by (symmetry; apply Z.ltb_lt; lia). reflexivity.
    + replace (2 * r <? m) with true by (symmetry; apply Z.ltb_lt; lia). reflexivity.
    + replace (2 * r <? m) with false by (symmetry; apply Z.ltb_ge; lia).
      replace (2 * r =? m) with false by (symmetry; apply Z.eqb_neq; lia). reflexivity.
Qed.

Lemma new_location_mono m r1 r2 :
  0 < m -> 0 <= r1 -> r1 <= r2 -> r2 < m ->
  loc_rank (new_location m r1) <= loc_rank (new_location m r2).
Proof.
  intros Hm H1 H12 H2. rewrite !new_location_cases by lia.
  destruct (r1 =? 0) eqn:A1, (r2 =? 0) eqn:A2,
           (2 * r1 <? m) eqn:B1, (2 * r2 <? m) eqn:B2,
           (2 * r1 =? m) eqn:C1, (2 * r2 =? m) eqn:C2; cbn [loc_rank]; try lia;
    repeat match goal with
           | H : (_ =? _) = true |- _ => apply Z.eqb_eq in H
           | H : (_ =? _) = false |- _ => apply Z.eqb_neq in H
           | H : (_ <? _) = true |- _ => apply Z.ltb_lt in H
           | H : (_ <? _) = false |- _ => apply Z.ltb_ge in H
           end; lia.
Qed.

(** Doubling the numerator is one more digit of quotient, which the first
    alignment shifts out again. *)
Lemma halve_located m2 N :
  0 < N / Zpos m2 ->
  shr_1 (shr_record_of_loc ((2 * N) / Zpos m2) (new_location (Zpos m2) ((2 * N) mod Zpos m2)))
  = shr_record_of_loc (N / Zpos m2) (new_location (Zpos m2) (N mod Zpos m2)).
Proof.
  intros Hq.
  pose proof (Z.div_mod N (Zpos m2) ltac:(lia)) as EN.
  pose proof (Z.mod_pos_bound N (Zpos m2) ltac:(lia)) as BN.
  set (q := N / Zpos m2) in *. set (r := N mod Zpos m2) in *.
  destruct (Z.lt_ge_cases (2 * r) (Zpos m2)) as [Lo | Hi].
  - assert (Eq' : (2 * N) / Zpos m2 = 2 * q)
      by (symmetry; apply (Z.div_unique_pos _ _ _ (2 * r)); lia).
    assert (Er' : (2 * N) mod Zpos m2 = 2 * r)
      by (symmetry; apply (Z.mod_unique_pos _ _ (2 * q)); lia).
    rewrite Eq', Er', !new_location_cases by lia.
    replace (2 * r <? Zpos m2) with true by (symmetry; apply Z.ltb_lt; lia).
    replace (2 * r =? 0) with (r =? 0)
      by (destruct (r =? 0) eqn:A; symmetry;
          [apply Z.eqb_eq; apply Z.eqb_eq in A | apply Z.eqb_neq; apply Z.eqb_neq in A]; lia).
    destruct q as [|pq|pq]; try lia. change (2 * Zpos pq) with (Zpos pq~0).
    destruct (r =? 0); [reflexivity | ].
    destruct (2 * (2 * r) <? Zpos m2); [reflexivity | ].
    destruct (2 * (2 * r) =? Zpos m2); reflexivity.
  - assert (Eq' : (2 * N) / Zpos m2 = 2 * q + 1)
      by (symmetry; apply (Z.div_unique_pos _ _ _ (2 * r - Zpos m2)); lia).
    assert (Er' : (2 * N) mod Zpos m2 = 2 * r - Zpos m2)
      by (symmetry; apply (Z.mod_unique_pos _ _ (2 * q + 1)); lia).
    rewrite Eq', Er', !new_location_cases by lia.
    replace (2 * r <? Zpos m2) with false by (symmetry; apply Z.ltb_ge; lia).
    replace (r =? 0) with false by (symmetry; apply Z.eqb_neq; lia).
    replace (2 * r - Zpos m2 =? 0) with (2 * r =? Zpos m2)
      by (destruct (2 * r =? Zpos m2) eqn:A; symmetry;
          [apply Z.eqb_eq; apply Z.eqb_eq in A | apply Z.eqb_neq; apply Z.eqb_neq in A]; lia).
    destruct q as [|pq|pq]; try lia. change (2 * Zpos pq + 1) with (Zpos pq~1).
    destruct (2 * r =? Zpos m2); [reflexivity | ].
    destruct (2 * (2 * r - Zpos m2) <? Zpos m2); [reflexivity | ].
    destruct (2 * (2 * r - Zpos m2) =? Zpos m2); reflexivity.
Qed.

Lemma double_quotient m2 N :
  0 <= N ->
  (2 * N) / Zpos m2 = 2 * (N / Zpos m2) \/ (2 * N) / Zpos m2 = 2 * (N / Zpos m2) + 1.
Proof.
  intros HN.
  pose proof (Z.div_mod N (Zpos m2) ltac:(lia)) as EN.
  pose proof (Z.mod_pos_bound N (Zpos m2) ltac:(lia)) as BN.
  destruct (Z.lt_ge_cases (2 * (N mod Zpos m2)) (Zpos m2)) as [Lo | Hi].
  - left. symmetry. apply (Z.div_unique_pos _ _ _ (2 * (N mod Zpos m2))); lia.
  - right. symmetry. apply (Z.div_unique_pos _ _ _ (2 * (N mod Zpos m2) - Zpos m2)); lia.
Qed.

Lemma digits2_at_least_53 p : 2 ^ 52 <= Zpos p -> 53 <= Zpos (digits2_pos p).
Proof.
  intros H. pose proof (digits2_bounds p) as [_ B].
  destruct (Z.lt_ge_cases (Zpos (digits2_pos p)) 53) as [L | G]; [exfalso | exact G].
  assert (2 ^ Zpos (digits2_pos p) <= 2 ^ 52) by (apply Z.pow_le_mono_r; lia). lia.
Qed.

Lemma quotient_shift m2 N E :
  2 ^ 52 <= N / Zpos m2 -> -1074 <= E ->
  quotient_at m2 N (E + 1) = quotient_at m2 (2 * N) E.
Proof.
  intros Hq HE. unfold quotient_at. rewrite !div_eucl_pair.
  assert (HN : 0 <= N).
  { destruct (Z.lt_ge_cases N 0) as [L | G]; [ | exact G].
    pose proof (Z.div_lt_upper_bound N (Zpos m2) 0 ltac:(lia) ltac:(lia)). lia. }
  pose proof (halve_located m2 N ltac:(lia)) as Hh.
  pose proof (double_quotient m2 N HN) as Hd.
  destruct (N / Zpos m2) as [|pq|pq] eqn:Eq; try lia.
  destruct ((2 * N) / Zpos m2) as [|pq'|pq'] eqn:Eq'; try lia.
  assert (Dq : 53 <= Zpos (digits2_pos pq)) by (apply digits2_at_least_53; lia).
  assert (Dq' : Zpos (digits2_pos pq') = Zpos (digits2_pos pq) + 1).
  { destruct Hd as [Hd | Hd].
    - change (2 * Zpos pq) with (Zpos pq~0) in Hd. injection Hd as ->.
      cbn [digits2_pos]. lia.
    - change (2 * Zpos pq + 1) with (Zpos pq~1) in Hd. injection Hd as ->.
      cbn [digits2_pos]. lia. }
  rewrite !binary_round_aux_normal by lia.
  replace (E + (Zpos (digits2_pos pq') - 53)) with (E + 1 + (Zpos (digits2_pos pq) - 53)) by lia.
  assert (Ea : aligned pq' (new_location (Zpos m2) ((2 * N) mod Zpos m2))
               = aligned pq (new_location (Zpos m2) (N mod Zpos m2))).
  { unfold aligned. rewrite Dq'.
    replace (Zpos (digits2_pos pq) + 1 - 53) with (Zpos (digits2_pos pq) - 53 + 1) by lia.
    rewrite shr_one_more by lia. rewrite Hh. reflexivity. }
  rewrite Ea. reflexivity.
Qed.

Lemma quotient_shift_many m2 (k : nat) :
  forall N E,
    2 ^ 52 <= N / Zpos m2 -> -1074 <= E ->
    quotient_at m2 N (E + Z.of_nat k) = quotient_at m2 (N * 2 ^ Z.of_nat k) E.
Proof.
  induction k as [|k IH]; intros N E Hq HE.
  - cbn [Z.of_nat]. rewrite Z.add_0_r, Z.mul_1_r. reflexivity.
  - rewrite Nat2Z.inj_succ, Z.pow_succ_r by lia.
    replace (E + Z.succ (Z.of_nat k)) with (E + 1 + Z.of_nat k) by lia.
    rewrite IH by lia.
    replace (N * (2 * 2 ^ Z.of_nat k)) with (2 * (N * 2 ^ Z.of_nat k)) by lia.
    apply quotient_shift; [ | exact HE].
    assert (0 < 2 ^ Z.of_nat k) by (apply Z.pow_pos_nonneg; lia).
    assert (N / Zpos m2 <= (N * 2 ^ Z.of_nat k) / Zpos m2).
    { apply Z.div_le_mono; [lia | ].
      assert (0 <= N).
      { destruct (Z.lt_ge_cases N 0) as [L | G]; [ | exact G].
        pose proof (Z.div_lt_upper_bound N (Zpos m2) 0 ltac:(lia) ltac:(lia)). lia. }
      nia. }
    lia.
Qed.

Lemma quotient_mono m2 N1 N2 E :
  N1 <= N2 -> 2 ^ 52 <= N1 / Zpos m2 -> -1074 <= E ->
  Float64.leb (quotient_at m2 N1 E) (quotient_at m2 N2 E) = true.
Proof.
  intros H12 Hq HE. unfold quotient_at. rewrite !div_eucl_pair.
  pose proof (Z.div_le_mono N1 N2 (Zpos m2) ltac:(lia) H12) as Hqq.
  pose proof (Z.div_mod N1 (Zpos m2) ltac:(lia)) as E1.
  pose proof (Z.div_mod N2 (Zpos m2) ltac:(lia)) as E2.
  pose proof (Z.mod_pos_bound N1 (Zpos m2) ltac:(lia)) as B1.
  pose proof (Z.mod_pos_bound N2 (Zpos m2) ltac:(lia)) as B2.
  destruct (N1 / Zpos m2) as [|q1|q1] eqn:Eq1; try lia.
  destruct (N2 / Zpos m2) as [|q2|q2] eqn:Eq2; try lia.
  apply binary_round_aux_mono; [apply digits2_at_least_53; lia | exact HE | ].
  unfold shr_le. rewrite !shr_m_record_of, !loc_of_record_of.
  destruct (Z.eq_dec (Zpos q1) (Zpos q2)) as [Eq | Nq]; [right | left; lia].
  split; [exact Eq | ]. apply new_location_mono; lia.
Qed.

(** Division by a positive normal float is monotone on the positive normal
    floats. *)
Lemma div_mono_pos m1 e1 m1' e1' m2 e2 :
  Zpos (digits2_pos m1) = 53 -> Zpos (digits2_pos m1') = 53 -> Zpos (digits2_pos m2) = 53 ->
  -1021 <= e1 - e2 ->
  e1 < e1' \/ (e1 = e1' /\ Zpos m1 <= Zpos m1') ->
  Float64.leb (Float64.div (S754_finite false m1 e1) (S754_finite false m2 e2))
              (Float64.div (S754_finite false m1' e1') (S754_finite false m2 e2)) = true.
Proof.
  intros D1 D1' D2 He Hle.
  pose proof (digits2_bounds m1) as B1. rewrite D1 in B1. change (53 - 1) with 52 in B1.
  pose proof (digits2_bounds m1') as B1'. rewrite D1' in B1'. change (53 - 1) with 52 in B1'.
  pose proof (digits2_bounds m2) as B2. rewrite D2 in B2. change (53 - 1) with 52 in B2.
  rewrite !div_as_quotient by lia.
  assert (Q : forall m, 2 ^ 52 <= Zpos m -> 2 ^ 52 <= (Zpos m * 2 ^ 53) / Zpos m2).
  { intros m Hm. apply Z.div_le_lower_bound; [lia | ]. nia. }
  replace (e1' - e2 - 53) with (e1 - e2 - 53 + Z.of_nat (Z.to_nat (e1' - e1))) by lia.
  rewrite quotient_shift_many by (try apply Q; lia).
  apply quotient_mono; [ | apply Q; lia | lia].
  assert (0 < 2 ^ 53) by lia.
  destruct Hle as [Hlt | [-> Hm]].
  - assert (2 * 1 <= 2 ^ Z.of_nat (Z.to_nat (e1' - e1))).
    { replace (Z.of_nat (Z.to_nat (e1' - e1))) with (Z.succ (e1' - e1 - 1)) by lia.
      rewrite Z.pow_succ_r by lia.
      assert (0 < 2 ^ (e1' - e1 - 1)) by (apply Z.pow_pos_nonneg; lia). lia. }
    nia.
  - replace (Z.of_nat (Z.to_nat (e1' - e1'))) with 0 by lia. rewrite Z.pow_0_r. nia.
Qed.

Lemma leb_finite_lex_inv m1 e1 m2 e2 :
  Float64.leb (S754_finite false m1 e1) (S754_finite false m2 e2) = true ->
  e1 < e2 \/ (e1 = e2 /\ Zpos m1 <= Zpos m2).
Proof.
  unfold Float64.leb, SFleb, SFcompare.
  destruct (Z.compare_spec e1 e2) as [E | L | G]; intros H; try discriminate H.
  - right. split; [exact E | ].
    change (Pos.compare_cont Eq m1 m2) with (Pos.compare m1 m2) in H.
    destruct (Pos.compare_spec m1 m2) as [C | C | C]; try discriminate H; lia.
  - left. exact L.
Qed.

Lemma leb_neg_swap m1 e1 m2 e2 :
  Float64.leb (S754_finite false m1 e1) (S754_finite false m2 e2) = true ->
  Float64.leb (S754_finite true m2 e2) (S754_finite true m1 e1) = true.
Proof.
  intros H. apply leb_finite_lex_inv in H.
  unfold Float64.leb, SFleb, SFcompare.
  destruct (Z.compare_spec e2 e1) as [E | L | G]; try reflexivity; try lia.
  change (Pos.compare_cont Eq m2 m1) with (Pos.compare m2 m1).
  destruct (Pos.compare_spec m2 m1) as [C | C | C]; try reflexivity. lia.
Qed.

Lemma binary_round_aux_neg m e l :
  binary_round_aux Float64.mantissa_bits Float64.emax true m e l
  = Float64.neg (binary_round_aux Float64.mantissa_bits Float64.emax false m e l).
Proof.
  unfold binary_round_aux.
  destruct (shr_fexp _ _ m e l) as [r1 e1].
  destruct (shr_fexp _ _ _ e1 loc_Exact) as [r2 e2].
  destruct (shr_m r2); try reflexivity.
  destruct (e2 <=? _); reflexivity.
Qed.

Lemma of_Z_neg p : Float64.of_Z (Zneg p) = Float64.neg (Float64.of_Z (Zpos p)).
Proof.
  unfold Float64.of_Z, binary_normalize, binary_round.
  destruct (shl_align _ _ _). apply binary_round_aux_neg.
Qed.

Lemma div_neg m e m2 e2 :
  Float64.div (S754_finite true m e) (S754_finite false m2 e2)
  = Float64.neg (Float64.div (S754_finite false m e) (S754_finite false m2 e2)).
Proof.
  unfold Float64.div, SFdiv.
  destruct (SFdiv_core_binary _ _ _ _ _ _) as [[mz ez] lz]. apply binary_round_aux_neg.
Qed.

Lemma div_normal m1 e1 m2 e2 :
  Zpos (digits2_pos m1) = 53 -> Zpos (digits2_pos m2) = 53 ->
  -52 <= e1 <= 12 -> -52 <= e2 <= 12 ->
  exists m e, Float64.div (S754_finite false m1 e1) (S754_finite false m2 e2)
              = S754_finite false m e.
Proof.
  intros D1 D2 He1 He2.
  pose proof (digits2_bounds m1) as B1. rewrite D1 in B1. change (53 - 1) with 52 in B1.
  pose proof (digits2_bounds m2) as B2. rewrite D2 in B2. change (53 - 1) with 52 in B2.
  rewrite div_as_quotient by lia. unfold quotient_at. rewrite div_eucl_pair.
  assert (Lo : 2 ^ 52 <= (Zpos m1 * 2 ^ 53) / Zpos m2)
    by (apply Z.div_le_lower_bound; [lia | nia]).
  assert (Hi : (Zpos m1 * 2 ^ 53) / Zpos m2 < 2 ^ 54)
    by (apply Z.div_lt_upper_bound; [lia | nia]).
  destruct ((Zpos m1 * 2 ^ 53) / Zpos m2) as [|q|q] eqn:Eq; try lia.
  assert (Dq : 53 <= Zpos (digits2_pos q) <= 54).
  { split; [apply digits2_at_least_53; lia | ].
    pose proof (digits2_bounds q) as [B _].
    destruct (Z.le_gt_cases (Zpos (digits2_pos q)) 54) as [L | G]; [exact L | exfalso].
    assert (2 ^ 54 <= 2 ^ (Zpos (digits2_pos q) - 1)) by (apply Z.pow_le_mono_r; lia). lia. }
  rewrite binary_round_aux_normal by lia.
  set (l := new_location (Zpos m2) ((Zpos m1 * 2 ^ 53) mod Zpos m2)).
  destruct (pack_normal _ (e1 - e2 - 53 + (Zpos (digits2_pos q) - 53))
              (aligned_rounded q l ltac:(lia)) ltac:(lia)) as (m & e & E & _).
  exists m, e. exact E.
Qed.

Lemma value_at_pos p v :
  0 < p < 2 ^ 64 -> 0 < v < 2 ^ 64 ->
  exists m e, value_at p v = S754_finite false m e.
Proof.
  intros Hp Hv. unfold value_at.
  destruct p as [|p|p]; try lia. destruct v as [|v|v]; try lia.
  destruct (of_Z_normal p ltac:(lia)) as (m2 & e2 & -> & D2 & B2).
  destruct (of_Z_normal v ltac:(lia)) as (m1 & e1 & -> & D1 & B1).
  apply div_normal; assumption.
Qed.

Lemma value_at_mono_pos p v1 v2 :
  0 < p < 2 ^ 64 -> 0 < v1 -> v1 <= v2 -> v2 < 2 ^ 64 ->
  Float64.leb (value_at p v1) (value_at p v2) = true.
Proof.
  intros Hp H1 H12 H2. unfold value_at.
  destruct p as [|p|p]; try lia.
  destruct v1 as [|v1|v1]; try lia. destruct v2 as [|v2|v2]; try lia.
  pose proof (of_Z_mono_pos v1 v2 H12 H2) as Hle.
  destruct (of_Z_normal p ltac:(lia)) as (m2 & e2 & -> & D2 & B2).
  destruct (of_Z_normal v1 ltac:(lia)) as (m1 & e1 & E1 & D1 & B1).
  destruct (of_Z_normal v2 ltac:(lia)) as (m1' & e1' & E1' & D1' & B1').
  rewrite E1, E1' in *.
  apply div_mono_pos; try assumption; [lia | ].
  apply leb_finite_lex_inv, Hle.
Qed.

Lemma value_at_zero p : 0 < p < 2 ^ 64 -> value_at p 0 = S754_zero false.
Proof.
  intros Hp. unfold value_at. destruct p as [|p|p]; try lia.
  destruct (of_Z_normal p ltac:(lia)) as (m2 & e2 & -> & _). reflexivity.
Qed.

Lemma value_at_neg p v :
  0 < p < 2 ^ 64 -> 0 < v < 2 ^ 64 -> value_at p (- v) = Float64.neg (value_at p v).
Proof.
  intros Hp Hv. unfold value_at.
  destruct p as [|p|p]; try lia. destruct v as [|v|v]; try lia.
  change (- Zpos v) with (Zneg v). rewrite of_Z_neg.
  destruct (of_Z_normal p ltac:(lia)) as (m2 & e2 & -> & _).
  destruct (of_Z_normal v ltac:(lia)) as (m1 & e1 & -> & _).
  apply div_neg.
Qed.

Lemma value_at_mono_neg p a b :
  0 < p < 2 ^ 64 -> 0 < b -> b <= a -> a < 2 ^ 64 ->
  Float64.leb (value_at p (- a)) (value_at p (- b)) = true.
Proof.
  intros Hp Hb Hba Ha. rewrite !value_at_neg by lia.
  pose proof (value_at_mono_pos p b a Hp Hb Hba Ha) as H.
  destruct (value_at_pos p a Hp ltac:(lia)) as (ma & ea & Ea).
  destruct (value_at_pos p b Hp ltac:(lia)) as (mb & eb & Eb).
  rewrite Ea, Eb in *. apply leb_neg_swap, H.
Qed.

Lemma value_at_neg_finite p a :
  0 < p < 2 ^ 64 -> 0 < a < 2 ^ 64 ->
  exists m e, value_at p (- a) = S754_finite true m e.
Proof.
  intros Hp Ha. rewrite value_at_neg by lia.
  destruct (value_at_pos p a Hp Ha) as (m & e & ->). exists m, e. reflexivity.
Qed.

(** [Value()] is monotone in the raw value, for every scale factor but 0. *)
Lemma value_at_mono p v1 v2 :
  0 < p < 2 ^ 64 -> - 2 ^ 64 < v1 -> v1 <= v2 -> v2 < 2 ^ 64 ->
  Float64.leb (value_at p v1) (value_at p v2) = true.
Proof.
  intros Hp H1 H12 H2.
  destruct (Z.lt_trichotomy v1 0) as [N1 | [Z1 | P1]];
  destruct (Z.lt_trichotomy v2 0) as [N2 | [Z2 | P2]]; try lia.
  - replace v1 with (- (- v1)) by lia. replace v2 with (- (- v2)) by lia.
    apply value_at_mono_neg; lia.
  - subst v2. rewrite (value_at_zero p Hp).
    destruct (value_at_neg_finite p (- v1) Hp ltac:(lia)) as (m & e & E).
    replace (- - v1) with v1 in E by lia. rewrite E. reflexivity.
  - destruct (value_at_neg_finite p (- v1) Hp ltac:(lia)) as (m & e & E).
    replace (- - v1) with v1 in E by lia. rewrite E.
    destruct (value_at_pos p v2 Hp ltac:(lia)) as (mb & eb & ->). reflexivity.
  - subst v1 v2. rewrite (value_at_zero p Hp). reflexivity.
  - subst v1. rewrite (value_at_zero p Hp).
    destruct (value_at_pos p v2 Hp ltac:(lia)) as (mb & eb & ->). reflexivity.
  - apply value_at_mono_pos; lia.
Qed.

(** ** The gauge's operations *)

Section GaugeProperties.

Variable conv : float64 -> Z.

Lemma Set_frame fpg v :
  prec (Gauge.Set_ conv fpg v) = prec fpg /\ desc (Gauge.Set_ conv fpg v) = desc fpg.
Proof. split; reflexivity. Qed.

Lemma Add_frame fpg delta :
  prec (Gauge.Add conv fpg delta) = prec fpg /\ desc (Gauge.Add conv fpg delta) = desc fpg.
Proof. split; reflexivity. Qed.

Lemma int64_of_float_exact f z :
  Float64.trunc f = Some z -> in_int64 z = true -> int64_of_float conv f = z.
Proof. unfold int64_of_float. intros -> ->. reflexivity. Qed.

Lemma int64_of_float_range f : in_int64 (int64_of_float conv f) = true.
Proof.
  unfold int64_of_float. destruct (Float64.trunc f) as [z|].
  - destruct (in_int64 z) eqn:E; [exact E | apply wrap_int64_range].
  - apply wrap_int64_range.
Qed.

End GaugeProperties.

(** C3: [Set(v)] stores [int64(v) * scaleFactor]: the argument loses its
    fraction before it is scaled.  Whatever the cell held, its raw value
    after [Set(v)] is [int64(v) * int64(scaleFactor)] in int64 arithmetic,
    with [int64(v)] the integer part [z] of [v] whenever that fits an
    int64, and the scale factor and the descriptor are as before;
    [Set(0.5)] on a cell of precision 3 that holds 1000 leaves the raw
    value 0 and [Value()] 0, not 0.5. *)
Theorem Set_truncates_before_scaling :
  forall (conv uconv : float64 -> Z) (fpg : FixedPrecisionGauge) (v : float64) (z : Z),
    val (Gauge.Set_ conv fpg v)
    = wrap_int64 (int64_of_float conv v * wrap_int64 (prec fpg))
    /\ prec (Gauge.Set_ conv fpg v) = prec fpg
    /\ desc (Gauge.Set_ conv fpg v) = desc fpg
    /\ (Float64.trunc v = Some z -> in_int64 z = true ->
        val (Gauge.Set_ conv fpg v) = wrap_int64 (z * wrap_int64 (prec fpg)))
    /\ (let c0 := Gauge.Inc (Gauge.NewFixedPrecisionGauge uconv test_opts 3) in
        let c := Gauge.Set_ conv c0 lit_0_5 in
        val c0 = 1000
        /\ val c = 0
        /\ Gauge.Value c = Float64.zero
        /\ Float64.eqb (Gauge.Value c) lit_0_5 = false).
Proof.
  intros conv uconv fpg v z. split; [reflexivity | split; [reflexivity | split; [reflexivity | ]]].
  split.
  - intros Ht Hr. unfold Gauge.Set_, atomic_StoreInt64, with_val. cbn [val].
    rewrite (int64_of_float_exact conv v z Ht Hr). reflexivity.
  - cbv zeta. repeat split; vm_compute; reflexivity.
Qed.

Lemma Set_truncates_before_scaling_witness :
  Float64.trunc lit_42_3 = Some 42 /\ in_int64 42 = true
  /\ val (Gauge.Inc (Gauge.NewFixedPrecisionGauge arm64_uint test_opts 3)) = 1000
  /\ val (Gauge.Set_ arm64_int64
            (Gauge.Inc (Gauge.NewFixedPrecisionGauge arm64_uint test_opts 3)) lit_42_3)
     = 42000.
Proof.
  split; [reflexivity | split; [reflexivity | split; [reflexivity | ]]].
  exact (eq_trans
           (proj1 (proj2 (proj2 (proj2 (Set_truncates_before_scaling arm64_int64 arm64_uint
              (Gauge.Inc (Gauge.NewFixedPrecisionGauge arm64_uint test_opts 3)) lit_42_3 42))))
              eq_refl eq_refl)
           eq_refl).
Defined.

(** C4: [Add(delta)] adds [int64(delta * float64(scaleFactor))] to the raw
    value in int64 arithmetic and leaves the scale factor and the
    descriptor alone.  The product is formed first and truncated toward
    zero afterwards: on a cell of precision 3, [Add(0.5)] adds 500 (where
    [Set(0.5)] stores 0) and [Add(-0.0015)] adds -1. *)
Theorem Add_scales_before_truncating :
  forall (conv uconv : float64 -> Z) (fpg : FixedPrecisionGauge) (delta : float64),
    let d := int64_of_float conv (Float64.mul delta (Float64.of_Z (prec fpg))) in
    val (Gauge.Add conv fpg delta) = wrap_int64 (val fpg + d)
    /\ (val (Gauge.Add conv fpg delta) - val fpg) mod 2 ^ 64 = d mod 2 ^ 64
    /\ (in_int64 (val fpg + d) = true -> val (Gauge.Add conv fpg delta) - val fpg = d)
    /\ prec (Gauge.Add conv fpg delta) = prec fpg
    /\ desc (Gauge.Add conv fpg delta) = desc fpg
    /\ (let c := Gauge.NewFixedPrecisionGauge uconv test_opts 3 in
        val (Gauge.Add conv c lit_0_5) = 500
        /\ val (Gauge.Set_ conv c lit_0_5) = 0
        /\ val (Gauge.Add conv c lit_minus_0_0015) = -1).
Proof.
  intros conv uconv fpg delta d. repeat split.
  - pose proof (wrap_int64_congr (val fpg + d)) as C.
    change (val (Gauge.Add conv fpg delta)) with (wrap_int64 (val fpg + d)).
    replace (wrap_int64 (val fpg + d) - val fpg)
      with (wrap_int64 (val fpg + d) - (val fpg + d) + d) by lia.
    rewrite <- Z.add_mod_idemp_l, C by lia. reflexivity.
  - intros Hr. change (val (Gauge.Add conv fpg delta)) with (wrap_int64 (val fpg + d)).
    rewrite (wrap_int64_id _ Hr). lia.
Qed.

Lemma Add_scales_before_truncating_witness :
  in_int64 (1000 + 42300) = true
  /\ val (Gauge.Add arm64_int64
            (with_val (Gauge.NewFixedPrecisionGauge arm64_uint test_opts 3) 1000) lit_42_3)
     - 1000 = 42300.
Proof.
  split; [reflexivity | ].
  exact (proj1 (proj2 (proj2 (Add_scales_before_truncating arm64_int64 arm64_uint
           (with_val (Gauge.NewFixedPrecisionGauge arm64_uint test_opts 3) 1000) lit_42_3)))
         eq_refl).
Defined.

(** C6: [Sub(v)] is [Add(-v)]: the product [v * -1] the code forms is the
    negation of [v] for every float64 value, NaN included. *)
Theorem Sub_is_Add_of_negation :
  forall (conv : float64 -> Z) (fpg : FixedPrecisionGauge) (v : float64),
    Float64.valid v = true ->
    Gauge.Sub conv fpg v = Gauge.Add conv fpg (Float64.neg v).
Proof.
  intros conv fpg v Hv. unfold Gauge.Sub. rewrite (mul_minus_one v Hv). reflexivity.
Qed.

Lemma Sub_is_Add_of_negation_witness :
  Float64.valid lit_42_3 = true
  /\ Gauge.Sub arm64_int64 (Gauge.NewFixedPrecisionGauge arm64_uint test_opts 3) lit_42_3
     = Gauge.Add arm64_int64 (Gauge.NewFixedPrecisionGauge arm64_uint test_opts 3)
         (Float64.neg lit_42_3).
Proof.
  split; [reflexivity | ].
  apply (Sub_is_Add_of_negation arm64_int64). reflexivity.
Defined.

(** C7: on a fresh cell of precision 0, [Inc()] then
    [Add(0.9999999999999999999)] leaves [Value() == 2.0], and a further
    [Sub(2.9999999999999999999)] leaves [Value() == -1.0]; as float64 the
    two literals are 1.0 and 3.0 (so is the product
    [0.9999999999999999999 * 3] the test passes). *)
Theorem precision_0_scenario :
  forall (conv uconv : float64 -> Z),
    let c0 := Gauge.NewFixedPrecisionGauge uconv test_opts 0 in
    let c2 := Gauge.Add conv (Gauge.Inc c0) lit_0_9999999999999999999 in
    let c3 := Gauge.Sub conv c2 lit_2_9999999999999999999 in
    lit_0_9999999999999999999 = Float64.of_Z 1
    /\ lit_2_9999999999999999999 = Float64.of_Z 3
    /\ lit_2_9999999999999999997 = Float64.of_Z 3
    /\ val c2 = 2 /\ Gauge.Value c2 = Float64.of_Z 2
    /\ Float64.eqb (Gauge.Value c2) (Float64.of_Z 2) = true
    /\ val c3 = -1 /\ Gauge.Value c3 = Float64.of_Z (-1)
    /\ Float64.eqb (Gauge.Value c3) (Float64.of_Z (-1)) = true.
Proof.
  intros conv uconv. cbv zeta. repeat split; vm_compute; reflexivity.
Qed.

(** C8: [Write] only reads: it returns a nil error, hands the cell back as
    it was (raw value, scale factor and descriptor) and puts [Value()],
    that is [float64(rawValue) / float64(scaleFactor)], into the counter
    field of the record, whose other fields it keeps. *)
Theorem Write_is_a_pure_read :
  forall (fpg : FixedPrecisionGauge) (out : Metric),
    let '(fpg', out', err) := Gauge.Write fpg out in
    err = None
    /\ fpg' = fpg
    /\ val fpg' = val fpg /\ prec fpg' = prec fpg /\ desc fpg' = desc fpg
    /\ m_Counter out' = Some (Gauge.Value fpg)
    /\ Gauge.Value fpg = Float64.div (Float64.of_Z (val fpg)) (Float64.of_Z (prec fpg))
    /\ m_Gauge out' = m_Gauge out /\ m_Label out' = m_Label out.
Proof.
  intros fpg out. unfold Gauge.Write. repeat split.
Qed.

(** ** The counter's guard *)

(** C2: on a counter, [Add(v)] with [v < 0] panics at once and leaves the
    cell as it was, so the raw value and [Value()] are unchanged; with
    [v >= 0] it is the embedded gauge's [Add]. *)
Theorem Counter_Add_guard :
  forall (conv : float64 -> Z) (fpc : FixedPrecisionCounter) (v : float64),
    (Float64.negative v ->
       Counter.Add conv fpc v = (fpc, Panic "counter cannot decrease in value")
       /\ val (gauge (fst (Counter.Add conv fpc v))) = val (gauge fpc)
       /\ Gauge.Value (gauge (fst (Counter.Add conv fpc v))) = Gauge.Value (gauge fpc))
    /\ (Float64.non_negative v ->
          Counter.Add conv fpc v = ({| gauge := Gauge.Add conv (gauge fpc) v |}, Normal)).
Proof.
  intros conv fpc v. unfold Counter.Add, Float64.ltb, SFltb. split.
  - intros Hn. unfold Float64.negative in Hn. rewrite Hn. repeat split.
  - intros [Hz | Hp]; unfold Float64.non_negative in *; [rewrite Hz | rewrite Hp];
      reflexivity.
Qed.

Lemma Counter_Add_guard_witness :
  Float64.negative Float64.minus_one /\ Float64.non_negative Float64.one
  /\ Counter.Add arm64_int64
       (Counter.NewFixedPrecisionCounter arm64_uint test_opts 3) Float64.minus_one
     = (Counter.NewFixedPrecisionCounter arm64_uint test_opts 3,
        Panic "counter cannot decrease in value")
  /\ fst (Counter.Add arm64_int64
            (Counter.NewFixedPrecisionCounter arm64_uint test_opts 3) Float64.one)
     = {| gauge := with_val (gauge (Counter.NewFixedPrecisionCounter arm64_uint test_opts 3))
                     1000 |}.
Proof.
  split; [reflexivity | split; [right; reflexivity | split]].
  - exact (proj1 (proj1 (Counter_Add_guard arm64_int64
             (Counter.NewFixedPrecisionCounter arm64_uint test_opts 3) Float64.minus_one)
             eq_refl)).
  - rewrite (proj2 (Counter_Add_guard arm64_int64
             (Counter.NewFixedPrecisionCounter arm64_uint test_opts 3) Float64.one)
             (or_intror eq_refl)).
    reflexivity.
Defined.

(** C10, as the code has it: [Add(NaN)] on a counter does not panic:
    [NaN < 0] is false, so the call goes on to the embedded gauge's [Add],
    which adds [int64(NaN)] (the product of NaN and the scale factor is
    NaN) to the raw value.  What that does to the cell depends on the
    target: on amd64 [int64(NaN)] is [-2^63] and the raw value changes,
    whatever it was; on arm64 it is 0 and a cell holding an int64 is left
    as it was. *)
Theorem Counter_Add_NaN_passes_the_guard :
  forall (conv : float64 -> Z) (fpc : FixedPrecisionCounter),
    Float64.ltb Float64.nan Float64.zero = false
    /\ Counter.Add conv fpc Float64.nan
       = ({| gauge := Gauge.Add conv (gauge fpc) Float64.nan |}, Normal)
    /\ val (gauge (fst (Counter.Add conv fpc Float64.nan)))
       = wrap_int64 (val (gauge fpc) + wrap_int64 (conv Float64.nan))
    /\ val (gauge (fst (Counter.Add amd64_int64 fpc Float64.nan)))
       = wrap_int64 (val (gauge fpc) - 2 ^ 63)
    /\ val (gauge (fst (Counter.Add amd64_int64 fpc Float64.nan))) <> val (gauge fpc)
    /\ (in_int64 (val (gauge fpc)) = true ->
        Counter.Add arm64_int64 fpc Float64.nan = (fpc, Normal)).
Proof.
  intros conv fpc. repeat split.
  - apply (wrap_int64_half_turn (val (gauge fpc))).
  - intros Hv. unfold Counter.Add, Gauge.Add, atomic_AddInt64, with_val.
    cbn [Float64.ltb SFltb SFcompare Float64.nan Float64.zero Float64.mul SFmul
         int64_of_float Float64.trunc arm64_int64].
    change (wrap_int64 0) with 0. rewrite Z.add_0_r, (wrap_int64_id _ Hv).
    destruct fpc as [[v p d]]. reflexivity.
Qed.

Lemma Counter_Add_NaN_passes_the_guard_witness :
  in_int64 (val (gauge (fst (counter_calls arm64_int64
                               (Counter.NewFixedPrecisionCounter arm64_uint test_opts 3)
                               [call_Inc])))) = true
  /\ Counter.Add arm64_int64
       (fst (counter_calls arm64_int64
               (Counter.NewFixedPrecisionCounter arm64_uint test_opts 3) [call_Inc]))
       Float64.nan
     = (fst (counter_calls arm64_int64
               (Counter.NewFixedPrecisionCounter arm64_uint test_opts 3) [call_Inc]),
        Normal).
Proof.
  split; [reflexivity | ].
  exact (proj2 (proj2 (proj2 (proj2 (proj2
           (Counter_Add_NaN_passes_the_guard arm64_int64
              (fst (counter_calls arm64_int64
                      (Counter.NewFixedPrecisionCounter arm64_uint test_opts 3)
                      [call_Inc]))))))) eq_refl).
Defined.

(** C10 as stated fails on arm64: [Add(NaN)] on a counter that holds 1000
    returns normally and the counter is what it was, raw value and
    [Value()] included. *)
Lemma Counter_Add_NaN_changes_nothing_on_arm64 :
  let c := fst (counter_calls arm64_int64
                  (Counter.NewFixedPrecisionCounter arm64_uint test_opts 3) [call_Inc]) in
  val (gauge c) = 1000
  /\ Counter.Add arm64_int64 c Float64.nan = (c, Normal)
  /\ val (gauge (fst (Counter.Add arm64_int64 c Float64.nan))) = val (gauge c)
  /\ counter_Value (fst (Counter.Add arm64_int64 c Float64.nan)) = counter_Value c.
Proof.
  cbv zeta. repeat split.
Qed.

(** ** Monotonicity of the counter *)

Section Monotone.

Variable conv : float64 -> Z.

Lemma in_int64_bounds z : in_int64 z = true -> min_int64 <= z <= max_int64.
Proof.
  unfold in_int64. intros H. apply andb_prop in H. destruct H as [Hlo Hhi].
  apply Z.leb_le in Hlo. apply Z.leb_le in Hhi. lia.
Qed.

Lemma in_int64_intro z : min_int64 <= z <= max_int64 -> in_int64 z = true.
Proof.
  unfold in_int64. intros H. apply andb_true_intro; split; apply Z.leb_le; lia.
Qed.

Lemma Inc_val g :
  scale_fits_int64 g -> in_int64 (val g) = true -> val g + prec g <= max_int64 ->
  val (Gauge.Inc g) = val g + prec g.
Proof.
  unfold scale_fits_int64, Gauge.Inc, Gauge.add, atomic_AddInt64, with_val.
  cbn [val prec]. intros Hp Hv Hs. apply in_int64_bounds in Hv.
  assert (Hi : in_int64 (prec g) = true)
    by (apply in_int64_intro; unfold min_int64; lia).
  rewrite (wrap_int64_id _ Hi), Z.mul_1_l, (wrap_int64_id _ Hi).
  apply wrap_int64_id, in_int64_intro. lia.
Qed.

Lemma Add_val g v d :
  scale_fits_int64 g -> in_int64 (val g) = true ->
  Float64.ltb v Float64.zero = false ->
  Float64.trunc (Float64.mul v (Float64.of_Z (prec g))) = Some d ->
  in_int64 d = true -> val g + d <= max_int64 ->
  val (Gauge.Add conv g v) = val g + d /\ 0 <= d.
Proof.
  intros Hp Hv Hlt Ht Hd Hs. unfold scale_fits_int64 in Hp.
  assert (Hp0 : 0 <= prec g) by lia.
  assert (H0 : 0 <= d).
  { apply (trunc_sign _ _ (mul_sign _ _ (ltb_zero_sign _ Hlt) (of_Z_sign _ Hp0)) Ht). }
  split; [ | exact H0].
  unfold Gauge.Add, atomic_AddInt64, with_val. cbn [val].
  rewrite (int64_of_float_exact conv _ _ Ht Hd).
  apply in_int64_bounds in Hv. apply wrap_int64_id, in_int64_intro. lia.
Qed.

(** One call of the capability: the scale factor stays, the raw value
    stays an int64 and does not decrease. *)
Lemma capability_call fpc c :
  counter_capability c = true ->
  scale_fits_int64 (gauge fpc) -> in_int64 (val (gauge fpc)) = true ->
  no_overflow conv fpc [c] = true ->
  let fpc' := fst (counter_call conv fpc c) in
  prec (gauge fpc') = prec (gauge fpc)
  /\ in_int64 (val (gauge fpc')) = true
  /\ val (gauge fpc) <= val (gauge fpc').
Proof.
  intros Hc Hp Hv Hn. pose proof (in_int64_bounds _ Hv) as Bv.
  destruct c; try discriminate Hc; cbn [no_overflow] in Hn.
  - (* Inc *)
    apply andb_prop in Hn. destruct Hn as [Hs _]. apply Z.leb_le in Hs.
    cbn [counter_call on_gauge fst gauge].
    pose proof (Inc_val _ Hp Hv Hs) as E. unfold scale_fits_int64 in Hp.
    repeat split; [rewrite E; apply in_int64_intro; lia | lia].
  - (* Add *)
    apply andb_prop in Hn. destruct Hn as [Hs _].
    cbn [counter_call]. unfold Counter.Add.
    destruct (Float64.ltb v Float64.zero) eqn:Hlt.
    + cbn [fst]. repeat split; [exact Hv | lia].
    + cbn [orb] in Hs.
      destruct (Float64.trunc _) as [d|] eqn:Ht; [ | discriminate Hs].
      apply andb_prop in Hs. destruct Hs as [Hd Hs]. apply Z.leb_le in Hs.
      destruct (Add_val _ _ _ Hp Hv Hlt Ht Hd Hs) as [E H0].
      cbn [fst gauge]. repeat split; [rewrite E; apply in_int64_intro; lia | lia].
  - (* Value *)
    cbn [counter_call on_gauge fst gauge]. repeat split; [exact Hv | lia].
  - (* Write *)
    cbn [counter_call on_gauge fst gauge Gauge.Write]. repeat split; [exact Hv | lia].
Qed.

Lemma no_overflow_head fpc c rest :
  no_overflow conv fpc (c :: rest) = true -> no_overflow conv fpc [c] = true.
Proof.
  cbn [no_overflow]. intros H. apply andb_prop in H. destruct H as [H _].
  rewrite H. destruct (counter_call conv fpc c) as [? [|?]]; reflexivity.
Qed.

(** Two cells of one scale factor: the larger raw value reports the larger
    [Value()]. *)
Lemma not_lower_intro a b :
  scale_fits_int64 (gauge a) -> prec (gauge b) = prec (gauge a) ->
  in_int64 (val (gauge a)) = true -> in_int64 (val (gauge b)) = true ->
  val (gauge a) <= val (gauge b) ->
  not_lower a b.
Proof.
  intros Hp Ep Ha Hb Hle. split; [exact Hle | ].
  unfold counter_Value, Gauge.Value, atomic_LoadInt64. rewrite Ep.
  apply in_int64_bounds in Ha. apply in_int64_bounds in Hb.
  unfold scale_fits_int64, min_int64, max_int64 in *.
  apply (value_at_mono (prec (gauge a)) (val (gauge a)) (val (gauge b))); lia.
Qed.

Lemma observed_sorted cs :
  forall fpc,
    forallb counter_capability cs = true ->
    scale_fits_int64 (gauge fpc) -> in_int64 (val (gauge fpc)) = true ->
    no_overflow conv fpc cs = true ->
    Forall (fun x => prec (gauge x) = prec (gauge fpc)
                     /\ in_int64 (val (gauge x)) = true
                     /\ val (gauge fpc) <= val (gauge x))
           (observed conv fpc cs)
    /\ StronglySorted not_lower (observed conv fpc cs).
Proof.
  induction cs as [|c rest IH]; intros fpc Hc Hp Hv Hn.
  - cbn [observed]. split.
    + constructor; [repeat split; [exact Hv | lia] | constructor].
    + constructor; constructor.
  - cbn [forallb] in Hc. apply andb_prop in Hc. destruct Hc as [Hc Hrest].
    pose proof (capability_call fpc c Hc Hp Hv (no_overflow_head _ _ _ Hn)) as Hstep.
    cbv zeta in Hstep. destruct Hstep as (Eprec & Hv' & Hle).
    cbn [observed]. cbn [no_overflow] in Hn.
    apply andb_prop in Hn. destruct Hn as [_ Hn].
    destruct (counter_call conv fpc c) as [fpc' [|msg]]; cbn [fst] in *.
    + assert (Hp' : scale_fits_int64 (gauge fpc')).
      { unfold scale_fits_int64 in *. rewrite Eprec. exact Hp. }
      destruct (IH fpc' Hrest Hp' Hv' Hn) as [Hall Hsorted].
      assert (Hall' : Forall (fun x => prec (gauge x) = prec (gauge fpc)
                                       /\ in_int64 (val (gauge x)) = true
                                       /\ val (gauge fpc) <= val (gauge x))
                             (observed conv fpc' rest)).
      { eapply Forall_impl; [ | exact Hall]. cbv beta. intros x (Ex & Hx & Lx).
        repeat split; [congruence | exact Hx | lia]. }
      split.
      * constructor; [repeat split; [exact Hv | lia] | exact Hall'].
      * constructor; [exact Hsorted | ].
        eapply Forall_impl; [ | exact Hall']. cbv beta. intros x (Ex & Hx & Lx).
        apply not_lower_intro; assumption.
    + split.
      * constructor; [repeat split; [exact Hv | lia] | ].
        constructor; [repeat split; assumption | constructor].
      * constructor; [constructor; constructor | ].
        constructor; [apply not_lower_intro; assumption | constructor].
Qed.

End Monotone.

(** C1, as the code has it: embedding promotes the gauge's methods, so
    [Set], [Inc], [Dec] and [Sub] are all in the method set of the counter,
    which is the gauge's own.  The calls of the counter capability, [Inc]
    and the guarded [Add] (and the reads), never lower the cell: in every
    sequence of them that stays within int64, on a cell whose scale factor
    is not 0 and fits an int64, each observation is at most every later
    one, in the raw value and in what [Value()] returns. *)
Theorem counter_capability_is_monotone :
  forall (conv : float64 -> Z) (fpc : FixedPrecisionCounter) (cs : list call),
    forallb counter_capability cs = true ->
    scale_fits_int64 (gauge fpc) ->
    in_int64 (val (gauge fpc)) = true ->
    no_overflow conv fpc cs = true ->
    StronglySorted not_lower (observed conv fpc cs)
    /\ forallb (fun m => mem m method_set_counter) method_set_gauge = true
    /\ forallb (fun m => mem m method_set_gauge) method_set_counter = true
    /\ forallb (fun m => mem m method_set_counter) ["Set"; "Inc"; "Dec"; "Sub"]%string = true.
Proof.
  intros conv fpc cs Hc Hp Hv Hn. split.
  - exact (proj2 (observed_sorted conv cs fpc Hc Hp Hv Hn)).
  - repeat split.
Qed.

Lemma counter_capability_is_monotone_witness :
  forallb counter_capability [call_Inc; call_Add lit_42_3; call_Value; call_Add Float64.minus_one]
    = true
  /\ scale_fits_int64 (gauge (Counter.NewFixedPrecisionCounter arm64_uint test_opts 3))
  /\ in_int64 (val (gauge (Counter.NewFixedPrecisionCounter arm64_uint test_opts 3))) = true
  /\ no_overflow arm64_int64 (Counter.NewFixedPrecisionCounter arm64_uint test_opts 3)
       [call_Inc; call_Add lit_42_3; call_Value; call_Add Float64.minus_one] = true
  /\ StronglySorted not_lower
       (observed arm64_int64 (Counter.NewFixedPrecisionCounter arm64_uint test_opts 3)
          [call_Inc; call_Add lit_42_3; call_Value; call_Add Float64.minus_one]).
Proof.
  assert (Hp : scale_fits_int64
                 (gauge (Counter.NewFixedPrecisionCounter arm64_uint test_opts 3))).
  { unfold scale_fits_int64. vm_compute. split; discriminate. }
  split; [reflexivity | split; [exact Hp | split; [reflexivity | split; [reflexivity | ]]]].
  exact (proj1 (counter_capability_is_monotone arm64_int64
                  (Counter.NewFixedPrecisionCounter arm64_uint test_opts 3)
                  [call_Inc; call_Add lit_42_3; call_Value; call_Add Float64.minus_one]
                  eq_refl Hp eq_refl eq_refl)).
Defined.

(** C1 as stated fails: [Dec] (like [Set], [Inc] and [Sub]) is callable on a
    counter, and one [Dec()] on a fresh counter takes the raw value from 0
    to -1000 and [Value()] from 0 to -1. *)
Lemma counter_exposes_Dec :
  mem "Set" method_set_counter = true
  /\ mem "Inc" method_set_counter = true
  /\ mem "Dec" method_set_counter = true
  /\ mem "Sub" method_set_counter = true
  /\ (let c := Counter.NewFixedPrecisionCounter arm64_uint test_opts 3 in
      let c' := fst (counter_calls arm64_int64 c [call_Dec]) in
      snd (counter_calls arm64_int64 c [call_Dec]) = Normal
      /\ observed arm64_int64 c [call_Dec] = [c; c']
      /\ val (gauge c) = 0 /\ val (gauge c') = -1000
      /\ counter_Value c = Float64.zero
      /\ counter_Value c' = Float64.of_Z (-1)
      /\ Float64.ltb (counter_Value c') (counter_Value c) = true
      /\ Float64.leb (counter_Value c) (counter_Value c') = false).
Proof.
  repeat split.
Qed.

(** ** The integer fast path *)

(** Up to 19 digits the scale factor is the power of ten, whatever the
    target does with unrepresentable values. *)
Lemma NewFixedPrecisionGauge_scale uconv opts p :
  0 <= p <= 19 ->
  prec (Gauge.NewFixedPrecisionGauge uconv opts p) = 10 ^ p
  /\ val (Gauge.NewFixedPrecisionGauge uconv opts p) = 0.
Proof.
  intros Hp. split; [ | reflexivity].
  assert (H : p = 0 \/ p = 1 \/ p = 2 \/ p = 3 \/ p = 4 \/ p = 5 \/ p = 6 \/ p = 7
              \/ p = 8 \/ p = 9 \/ p = 10 \/ p = 11 \/ p = 12 \/ p = 13 \/ p = 14
              \/ p = 15 \/ p = 16 \/ p = 17 \/ p = 18 \/ p = 19) by lia.
  repeat (destruct H as [-> | H]; [vm_compute; reflexivity | ]).
  subst p. vm_compute. reflexivity.
Qed.

Lemma exact_scale_power_of_ten g p :
  0 <= p <= 18 -> prec g = 10 ^ p -> exact_scale g.
Proof.
  intros Hp E. unfold exact_scale. rewrite E.
  assert (H : p = 0 \/ p = 1 \/ p = 2 \/ p = 3 \/ p = 4 \/ p = 5 \/ p = 6 \/ p = 7
              \/ p = 8 \/ p = 9 \/ p = 10 \/ p = 11 \/ p = 12 \/ p = 13 \/ p = 14
              \/ p = 15 \/ p = 16 \/ p = 17 \/ p = 18) by lia.
  repeat (destruct H as [-> | H];
          [split; [split; vm_compute; discriminate | vm_compute; reflexivity] | ]).
  subst p. split; [split; vm_compute; discriminate | vm_compute; reflexivity].
Qed.

Lemma exact_scale_constructed uconv opts p :
  0 <= p <= 18 -> exact_scale (Gauge.NewFixedPrecisionGauge uconv opts p).
Proof.
  intros Hp. apply (exact_scale_power_of_ten _ p Hp).
  apply NewFixedPrecisionGauge_scale. lia.
Qed.

Lemma unit_deltas conv g :
  exact_scale g ->
  int64_of_float conv (Float64.mul Float64.one (Float64.of_Z (prec g)))
    = wrap_int64 (1 * wrap_int64 (prec g))
  /\ int64_of_float conv (Float64.mul Float64.minus_one (Float64.of_Z (prec g)))
     = wrap_int64 (-1 * wrap_int64 (prec g)).
Proof.
  intros [[H0 H1] Ht].
  assert (Hp : in_int64 (prec g) = true).
  { unfold in_int64, min_int64. apply andb_true_intro; split; apply Z.leb_le; lia. }
  assert (Hn : in_int64 (- prec g) = true).
  { unfold in_int64, min_int64, max_int64 in *.
    apply andb_true_intro; split; apply Z.leb_le; lia. }
  change Float64.one with (S754_finite false 4503599627370496 (-52)).
  change Float64.minus_one with (S754_finite true 4503599627370496 (-52)).
  rewrite !(unit_mul _ _ (of_Z_valid _)), (wrap_int64_id _ Hp).
  rewrite Z.mul_1_l, (wrap_int64_id _ Hp).
  replace (-1 * prec g) with (- prec g) by lia. rewrite (wrap_int64_id _ Hn).
  split.
  - apply (int64_of_float_exact conv _ _ Ht Hp).
  - apply (int64_of_float_exact conv _ _ (trunc_neg _ _ Ht) Hn).
Qed.

(** C5, as the code has it: on every cell whose scale factor fits an int64
    and is held exactly by float64, whatever its raw value, [Inc()] is
    [Add(1.0)] and [Dec()] is [Add(-1.0)].  Every power of ten up to
    [10^18] is such a scale factor ([exact_scale_power_of_ten]), so this
    covers every cell built with at most 18 digits. *)
Theorem Inc_Dec_are_unit_Adds :
  forall (conv : float64 -> Z) (fpg : FixedPrecisionGauge),
    exact_scale fpg ->
    Gauge.Inc fpg = Gauge.Add conv fpg Float64.one
    /\ Gauge.Dec fpg = Gauge.Add conv fpg Float64.minus_one.
Proof.
  intros conv fpg Hs.
  destruct (unit_deltas conv fpg Hs) as [H1 H2].
  unfold Gauge.Inc, Gauge.Dec, Gauge.add, Gauge.Add. rewrite H1, H2.
  split; reflexivity.
Qed.

Lemma Inc_Dec_are_unit_Adds_witness :
  exact_scale (with_val (Gauge.NewFixedPrecisionGauge arm64_uint test_opts 3) 41999)
  /\ Gauge.Inc (with_val (Gauge.NewFixedPrecisionGauge arm64_uint test_opts 3) 41999)
     = Gauge.Add arm64_int64
         (with_val (Gauge.NewFixedPrecisionGauge arm64_uint test_opts 3) 41999) Float64.one
  /\ Gauge.Dec (with_val (Gauge.NewFixedPrecisionGauge arm64_uint test_opts 3) 41999)
     = Gauge.Add arm64_int64
         (with_val (Gauge.NewFixedPrecisionGauge arm64_uint test_opts 3) 41999)
         Float64.minus_one.
Proof.
  assert (H : exact_scale
                (with_val (Gauge.NewFixedPrecisionGauge arm64_uint test_opts 3) 41999)).
  { split; [split; vm_compute; discriminate | vm_compute; reflexivity]. }
  split; [exact H | ].
  exact (Inc_Dec_are_unit_Adds arm64_int64
           (with_val (Gauge.NewFixedPrecisionGauge arm64_uint test_opts 3) 41999) H).
Defined.

(** C5 as stated fails on the cell built with 19 digits: its scale factor
    [10^19] is a uint above the largest int64.  [Inc()] adds its int64
    image [10^19 - 2^64]; [Add(1.0)] adds [int64(1e19)], which is [-2^63]
    on amd64 and [2^63 - 1] on arm64. *)
Lemma Inc_is_not_Add_one_at_19_digits :
  let g := Gauge.NewFixedPrecisionGauge arm64_uint test_opts 19 in
  prec g = 10 ^ 19
  /\ val (Gauge.Inc g) = -8446744073709551616
  /\ val (Gauge.Add amd64_int64 g Float64.one) = -9223372036854775808
  /\ val (Gauge.Add arm64_int64 g Float64.one) = 9223372036854775807
  /\ Gauge.Inc g <> Gauge.Add amd64_int64 g Float64.one
  /\ Gauge.Inc g <> Gauge.Add arm64_int64 g Float64.one.
Proof.
  cbv zeta. repeat split; try (vm_compute; reflexivity);
    intros E; apply (f_equal val) in E; vm_compute in E; discriminate E.
Qed.

(** A scale factor that float64 rounds separates the two paths on every
    target; no constructor yields one, only a struct literal inside the
    package does. *)
Lemma Inc_is_not_Add_one_on_inexact_scale :
  forall (conv : float64 -> Z) (d : Desc),
    let g := {| val := 0; prec := 2 ^ 53 + 1; desc := d |} in
    val (Gauge.Inc g) = 2 ^ 53 + 1 /\ val (Gauge.Add conv g Float64.one) = 2 ^ 53.
Proof.
  intros conv d. cbv zeta. split; vm_compute; reflexivity.
Qed.

(** ** Concurrent increments *)

Lemma Inc_val_wrap g : val (Gauge.Inc g) = wrap_int64 (val g + prec g).
Proof.
  unfold Gauge.Inc, Gauge.add, atomic_AddInt64, with_val. cbn [val prec].
  rewrite Z.mul_1_l, !wrap_int64_add_r. reflexivity.
Qed.

Lemma outstanding_app l1 l2 : outstanding (l1 ++ l2) = outstanding l1 + outstanding l2.
Proof.
  induction l1 as [|k l1 IH]; cbn [app outstanding fold_right]; [reflexivity | ].
  change (fold_right (fun k acc => Z.of_N k + acc) 0 (l1 ++ l2)) with (outstanding (l1 ++ l2)).
  change (fold_right (fun k acc => Z.of_N k + acc) 0 l1) with (outstanding l1).
  lia.
Qed.

Lemma outstanding_cons k l : outstanding (k :: l) = Z.of_N k + outstanding l.
Proof. reflexivity. Qed.

Lemma outstanding_repeat m n : outstanding (repeat m n) = Z.of_nat n * Z.of_N m.
Proof.
  induction n as [|n IH]; [reflexivity | ].
  cbn [repeat]. rewrite outstanding_cons, IH. lia.
Qed.

Lemma outstanding_finished l : Forall (fun k => k = 0%N) l -> outstanding l = 0.
Proof.
  induction 1 as [|k l Hk _ IH]; [reflexivity | ].
  rewrite outstanding_cons, IH, Hk. reflexivity.
Qed.

(** Every step performs exactly one of the outstanding increments. *)
Lemma step_accounts c c' :
  step c c' ->
  prec (cell c') = prec (cell c)
  /\ outstanding (pending c') = outstanding (pending c) - 1
  /\ val (cell c') = wrap_int64 (val (cell c) + prec (cell c)).
Proof.
  intros [g before k after]. cbn [cell pending]. repeat split.
  - rewrite !outstanding_app, !outstanding_cons. lia.
  - apply Inc_val_wrap.
Qed.

Lemma steps_account c c' :
  steps c c' ->
  prec (cell c') = prec (cell c)
  /\ wrap_int64 (val (cell c'))
     = wrap_int64 (val (cell c)
                   + (outstanding (pending c) - outstanding (pending c')) * prec (cell c)).
Proof.
  induction 1 as [c | c1 c2 c3 H12 _ IH].
  - split; [reflexivity | ]. f_equal. lia.
  - destruct (step_accounts _ _ H12) as (Ep & Eo & Ev).
    destruct IH as [Ep' IH]. split; [congruence | ].
    rewrite IH, Ev, Ep, Eo, wrap_int64_add_l. f_equal. lia.
Qed.

Lemma steps_trans c1 c2 c3 : steps c1 c2 -> steps c2 c3 -> steps c1 c3.
Proof.
  induction 1 as [c | a b c Hab _ IH]; intros H; [exact H | ].
  eapply steps_step; [exact Hab | apply IH, H].
Qed.

(** One goroutine can always run to its end. *)
Lemma drain_goroutine k :
  forall g before after,
    exists g', steps {| cell := g; pending := before ++ k :: after |}
                     {| cell := g'; pending := before ++ 0%N :: after |}.
Proof.
  induction k as [|k IH] using N.peano_ind; intros g before after.
  - exists g. apply steps_refl.
  - destruct (IH (Gauge.Inc g) before after) as [g' Hg'].
    exists g'. eapply steps_step; [apply step_Inc | exact Hg'].
Qed.

Lemma drain_all after :
  forall g before,
    exists g', steps {| cell := g; pending := before ++ after |}
                     {| cell := g'; pending := before ++ map (fun _ => 0%N) after |}.
Proof.
  induction after as [|k after IH]; intros g before.
  - exists g. apply steps_refl.
  - destruct (drain_goroutine k g before after) as [g1 H1].
    destruct (IH g1 (before ++ [0%N])) as [g2 H2].
    rewrite <- !app_assoc in H2. cbn [app] in H2.
    exists g2. cbn [map]. eapply steps_trans; [exact H1 | exact H2].
Qed.

(** Every system of goroutines has a complete run. *)
Lemma complete_run_exists c : exists c', steps c c' /\ finished c'.
Proof.
  destruct c as [g l]. destruct (drain_all l g []) as [g' H]. cbn [app] in H.
  exists {| cell := g'; pending := map (fun _ => 0%N) l |}. split; [exact H | ].
  unfold finished. cbn [pending]. apply Forall_forall.
  intros k Hk. apply in_map_iff in Hk. destruct Hk as (x & <- & _). reflexivity.
Qed.

(** The raw value at the end of any complete run of [n] goroutines making
    [m] increments each, in int64 arithmetic. *)
Lemma concurrent_Inc_total g n m c' :
  in_int64 (val g) = true ->
  steps (spawn g n m) c' -> finished c' ->
  prec (cell c') = prec g
  /\ val (cell c') = wrap_int64 (val g + Z.of_nat n * Z.of_N m * prec g)
  /\ exists g', cell c' = with_val g g'.
Proof.
  intros Hv Hs Hf.
  assert (Hx : forall c c', steps c c' -> in_int64 (val (cell c)) = true ->
                 in_int64 (val (cell c')) = true /\ desc (cell c') = desc (cell c)).
  { clear. induction 1 as [c | c1 c2 c3 H12 _ IH]; intros Hv; [split; [exact Hv | reflexivity] | ].
    destruct H12 as [g before k after]. cbn [cell] in *.
    destruct IH as [IH1 IH2]; [rewrite Inc_val_wrap; apply wrap_int64_range | ].
    split; [exact IH1 | rewrite IH2; reflexivity]. }
  destruct (Hx _ _ Hs Hv) as [Hv' Hd].
  destruct (steps_account _ _ Hs) as [Ep Ev].
  cbn [spawn cell pending] in *.
  rewrite (outstanding_finished _ Hf), outstanding_repeat, Z.sub_0_r in Ev.
  rewrite (wrap_int64_id _ Hv') in Ev.
  repeat split; [exact Ep | exact Ev | ].
  exists (val (cell c')). destruct (cell c') as [v p d]. unfold with_val.
  cbn [val prec desc] in *. subst. reflexivity.
Qed.

(** C9, as the code has it: [n] goroutines calling [Inc()] [m] times each
    on one fresh cell of precision 0 can always run to completion, and as
    long as [n * m] is at most the largest int64, every complete
    interleaving ends with the raw value [n * m], no increment lost, and
    [Value()] then returns [float64(n * m)]. *)
Theorem concurrent_increments_are_not_lost :
  forall (uconv : float64 -> Z) (opts : Opts) (n : nat) (m : N),
    Z.of_nat n * Z.of_N m <= max_int64 ->
    let c0 := spawn (Gauge.NewFixedPrecisionGauge uconv opts 0) n m in
    (exists c', steps c0 c' /\ finished c')
    /\ (forall c', steps c0 c' -> finished c' ->
          val (cell c') = Z.of_nat n * Z.of_N m
          /\ Gauge.Value (cell c') = Float64.of_Z (Z.of_nat n * Z.of_N m)).
Proof.
  intros uconv opts n m Hnm c0. split; [apply complete_run_exists | ].
  intros c' Hs Hf.
  destruct (concurrent_Inc_total (Gauge.NewFixedPrecisionGauge uconv opts 0) n m c'
              eq_refl Hs Hf) as (Ep & Ev & _).
  change (prec (Gauge.NewFixedPrecisionGauge uconv opts 0)) with 1 in *.
  change (val (Gauge.NewFixedPrecisionGauge uconv opts 0)) with 0 in *.
  rewrite Z.mul_1_r, Z.add_0_l in Ev.
  assert (E : val (cell c') = Z.of_nat n * Z.of_N m).
  { rewrite Ev. apply wrap_int64_id. unfold in_int64, min_int64.
    apply andb_true_intro; split; apply Z.leb_le; lia. }
  split; [exact E | ].
  unfold Gauge.Value, atomic_LoadInt64. rewrite E, Ep.
  apply (div_one _ (of_Z_valid _)).
Qed.

Lemma concurrent_increments_are_not_lost_witness :
  Z.of_nat 3 * Z.of_N 4 <= max_int64
  /\ (exists c', steps (spawn (Gauge.NewFixedPrecisionGauge arm64_uint test_opts 0) 3 4) c'
                 /\ finished c')
  /\ (forall c', steps (spawn (Gauge.NewFixedPrecisionGauge arm64_uint test_opts 0) 3 4) c' ->
        finished c' -> val (cell c') = 12).
Proof.
  assert (H : Z.of_nat 3 * Z.of_N 4 <= max_int64) by (vm_compute; discriminate).
  split; [exact H | split].
  - exact (proj1 (concurrent_increments_are_not_lost arm64_uint test_opts 3 4 H)).
  - intros c' Hs Hf.
    exact (proj1 (proj2 (concurrent_increments_are_not_lost arm64_uint test_opts 3 4 H)
                    c' Hs Hf)).
Defined.

(** C9 as stated fails when [n * m] passes the largest int64: two
    goroutines making [2^62] increments each have complete runs, and every
    one of them ends with the raw value [-2^63] and a negative [Value()]. *)
Lemma concurrent_increments_wrap_around :
  let c0 := spawn (Gauge.NewFixedPrecisionGauge arm64_uint test_opts 0) 2 (2 ^ 62) in
  (exists c', steps c0 c' /\ finished c')
  /\ (forall c', steps c0 c' -> finished c' ->
        val (cell c') = - 2 ^ 63
        /\ Gauge.Value (cell c') = Float64.of_Z (- 2 ^ 63)
        /\ Float64.eqb (Gauge.Value (cell c')) (Float64.of_Z (2 * 2 ^ 62)) = false).
Proof.
  cbv zeta. split; [apply complete_run_exists | ].
  intros c' Hs Hf.
  destruct (concurrent_Inc_total (Gauge.NewFixedPrecisionGauge arm64_uint test_opts 0)
              2 (2 ^ 62) c' eq_refl Hs Hf) as (Ep & Ev & _).
  change (prec (Gauge.NewFixedPrecisionGauge arm64_uint test_opts 0)) with 1 in *.
  assert (E : val (cell c') = - 2 ^ 63) by (rewrite Ev; vm_compute; reflexivity).
  unfold Gauge.Value, atomic_LoadInt64. rewrite E, Ep.
  repeat split; vm_compute; reflexivity.
Qed.

(** * Further properties *)

(** ** Exact conversions, products and quotients *)

Lemma shiftl_nat_value p k : Zpos (Pos.shiftl_nat p k) = Zpos p * 2 ^ Z.of_nat k.
Proof.
  induction k as [|k IH].
  - cbn. lia.
  - cbn [Pos.shiftl_nat nat_rect]. change (nat_rect _ p (fun _ => xO) k) with (Pos.shiftl_nat p k).
    rewrite Pos2Z.inj_xO, IH, Nat2Z.inj_succ, Z.pow_succ_r by lia. lia.
Qed.

Lemma shiftl_nat_digits p k :
  Zpos (digits2_pos (Pos.shiftl_nat p k)) = Zpos (digits2_pos p) + Z.of_nat k.
Proof.
  induction k as [|k IH].
  - cbn. lia.
  - cbn [Pos.shiftl_nat nat_rect]. change (nat_rect _ p (fun _ => xO) k) with (Pos.shiftl_nat p k).
    cbn [digits2_pos]. lia.
Qed.

Lemma shr_shiftl_nat p k :
  fst (shr {| shr_m := Zpos (Pos.shiftl_nat p k); shr_r := false; shr_s := false |} 0
           (Z.of_nat k))
  = {| shr_m := Zpos p; shr_r := false; shr_s := false |}.
Proof.
  induction k as [|k IH].
  - reflexivity.
  - rewrite Nat2Z.inj_succ. replace (Z.succ (Z.of_nat k)) with (Z.of_nat k + 1) by lia.
    rewrite shr_one_more by lia.
    cbn [Pos.shiftl_nat nat_rect]. change (nat_rect _ p (fun _ => xO) k) with (Pos.shiftl_nat p k).
    cbn [shr_1 orb]. exact IH.
Qed.

(** Rounding a mantissa of 53 digits followed by zeros drops the zeros. *)
Lemma binary_round_aux_exact r k e :
  Zpos (digits2_pos r) = 53 -> -1074 <= e -> e + Z.of_nat k <= 971 ->
  binary_round_aux Float64.mantissa_bits Float64.emax false (Zpos (Pos.shiftl_nat r k)) e loc_Exact
  = S754_finite false r (e + Z.of_nat k).
Proof.
  intros D He Hk. pose proof (shiftl_nat_digits r k) as Dk.
  rewrite binary_round_aux_normal by lia.
  unfold aligned. cbn [shr_record_of_loc].
  replace (Zpos (digits2_pos (Pos.shiftl_nat r k)) - 53) with (Z.of_nat k) by lia.
  rewrite shr_shiftl_nat. cbn [shr_m loc_of_shr_record round_nearest_even pack].
  rewrite D. cbn [Z.eqb Pos.eqb]. unfold fin_or_inf.
  replace (_ <=? _) with true
    by (symmetry; apply Z.leb_le; unfold Float64.emax, Float64.mantissa_bits; lia).
  reflexivity.
Qed.

(** [float64] of a positive integer below [2^53]: the integer, shifted to
    53 digits. *)
Lemma of_Z_exact p :
  Zpos p < 2 ^ 53 ->
  exists k : nat,
    Z.of_nat k = 53 - Zpos (digits2_pos p)
    /\ Float64.of_Z (Zpos p) = S754_finite false (Pos.shiftl_nat p k) (- Z.of_nat k).
Proof.
  intros Hp.
  assert (Hd : Zpos (digits2_pos p) <= 53).
  { pose proof (digits2_bounds p) as [B _].
    destruct (Z.le_gt_cases (Zpos (digits2_pos p)) 53) as [L | G]; [exact L | exfalso].
    assert (2 ^ 53 <= 2 ^ (Zpos (digits2_pos p) - 1)) by (apply Z.pow_le_mono_r; lia). lia. }
  exists (Z.to_nat (53 - Zpos (digits2_pos p))). split; [lia | ].
  destruct (Z.lt_ge_cases (Zpos (digits2_pos p)) 53) as [S | L].
  - destruct (of_Z_small p S) as (k & Ek & ->).
    replace (- Z.of_nat (Z.to_nat (53 - Zpos (digits2_pos p)))) with (Zpos (digits2_pos p) - 53)
      by lia.
    f_equal. apply Pos2Z.inj. rewrite iter_xO_value, shiftl_nat_value. f_equal. f_equal. lia.
  - replace (53 - Zpos (digits2_pos p)) with 0 by lia. cbn [Z.to_nat Pos.shiftl_nat nat_rect Z.of_nat Z.opp].
    rewrite (of_Z_large p L).
    apply (binary_round_aux_exact p 0 0); lia.
Qed.

Lemma trunc_of_Z n : - 2 ^ 53 < n < 2 ^ 53 -> Float64.trunc (Float64.of_Z n) = Some n.
Proof.
  assert (Pos : forall p, Zpos p < 2 ^ 53 -> Float64.trunc (Float64.of_Z (Zpos p)) = Some (Zpos p)).
  { intros p Hp. destruct (of_Z_exact p Hp) as (k & Ek & ->).
    cbn [Float64.trunc]. f_equal.
    destruct k as [|k].
    - cbn. reflexivity.
    - assert (E : - Z.of_nat (S k) = Zneg (Pos.of_succ_nat k)) by lia. rewrite E.
      rewrite Z.shiftr_div_pow2 by lia. rewrite shiftl_nat_value.
      replace (Zpos (Pos.of_succ_nat k)) with (Z.of_nat (S k)) by lia.
      apply Z.div_mul. apply Z.pow_nonzero; lia. }
  intros Hn. destruct n as [|p|p].
  - reflexivity.
  - apply Pos. lia.
  - rewrite of_Z_neg. change (Zneg p) with (- Zpos p). apply trunc_neg, Pos. lia.
Qed.

Lemma digits2_product a b :
  Zpos (digits2_pos (a * b)) <= Zpos (digits2_pos a) + Zpos (digits2_pos b).
Proof.
  pose proof (digits2_bounds a) as [_ Ba]. pose proof (digits2_bounds b) as [_ Bb].
  pose proof (digits2_bounds (a * b)) as [Bab _].
  destruct (Z.le_gt_cases (Zpos (digits2_pos (a * b)))
              (Zpos (digits2_pos a) + Zpos (digits2_pos b))) as [L | G]; [exact L | exfalso].
  assert (2 ^ (Zpos (digits2_pos a) + Zpos (digits2_pos b)) <= 2 ^ (Zpos (digits2_pos (a * b)) - 1))
    by (apply Z.pow_le_mono_r; lia).
  rewrite Z.pow_add_r in H by lia. rewrite Pos2Z.inj_mul in Bab. nia.
Qed.

(** A quotient that is an integer below [2^53] is computed exactly. *)
Lemma div_exact a b :
  Zpos a * Zpos b < 2 ^ 53 ->
  Float64.div (Float64.of_Z (Zpos a * Zpos b)) (Float64.of_Z (Zpos b)) = Float64.of_Z (Zpos a).
Proof.
  intros H. change (Zpos a * Zpos b) with (Zpos (a * b)).
  assert (Ha : Zpos a < 2 ^ 53) by nia. assert (Hb : Zpos b < 2 ^ 53) by nia.
  destruct (of_Z_exact (a * b) H) as (kab & Eab & ->).
  destruct (of_Z_exact b Hb) as (kb & Eb & ->).
  destruct (of_Z_exact a Ha) as (ka & Ea & ->).
  pose proof (digits2_product a b) as Dab.
  rewrite div_as_quotient by (rewrite ?shiftl_nat_digits; lia).
  unfold quotient_at.
  set (j := (53 + kab - kb)%nat).
  assert (Ej : Z.of_nat j = 53 + Z.of_nat kab - Z.of_nat kb) by (unfold j; lia).
  rewrite (div_eucl_exact _ _ (Zpos (Pos.shiftl_nat a j))).
  2: lia.
  2:{ rewrite !shiftl_nat_value, Pos2Z.inj_mul.
      assert (P : 2 ^ Z.of_nat j * 2 ^ Z.of_nat kb = 2 ^ 53 * 2 ^ Z.of_nat kab)
        by (rewrite <- !Z.pow_add_r by lia; f_equal; lia).
      replace (Zpos a * 2 ^ Z.of_nat j * (Zpos b * 2 ^ Z.of_nat kb))
        with (Zpos a * Zpos b * (2 ^ Z.of_nat j * 2 ^ Z.of_nat kb)) by ring.
      rewrite P. ring. }
  replace (new_location (Zpos (Pos.shiftl_nat b kb)) 0) with loc_Exact
    by (unfold new_location, new_location_even, new_location_odd;
        destruct (Z.even _); reflexivity).
  assert (Es : Pos.shiftl_nat a j = Pos.shiftl_nat (Pos.shiftl_nat a ka) (j - ka)).
  { apply Pos2Z.inj. rewrite !shiftl_nat_value, <- Z.mul_assoc, <- Z.pow_add_r by lia.
    f_equal. f_equal. lia. }
  rewrite Es, binary_round_aux_exact by (rewrite ?shiftl_nat_digits; lia).
  f_equal. lia.
Qed.

Lemma all_between_spec lo hi f n :
  all_between lo hi f = true -> lo <= n <= hi -> f n = true.
Proof.
  unfold all_between. intros H Hn. rewrite forallb_forall in H.
  specialize (H (Z.to_nat (n - lo))).
  replace (lo + Z.of_nat (Z.to_nat (n - lo))) with n in H by lia.
  apply H. apply in_seq. lia.
Qed.

Lemma value_at_multiple p n :
  0 < p < 2 ^ 64 -> Z.abs n * p < 2 ^ 53 -> value_at p (n * p) = Float64.of_Z n.
Proof.
  intros Hp Hn. destruct n as [|a|a].
  - apply value_at_zero, Hp.
  - destruct p as [|b|b]; try lia. unfold value_at. apply div_exact. exact Hn.
  - destruct p as [|b|b]; try lia.
    replace (Zneg a * Zpos b) with (- (Zpos a * Zpos b)) by lia.
    rewrite value_at_neg by (change (Z.abs (Zneg a)) with (Zpos a) in Hn; lia).
    unfold value_at. rewrite div_exact by exact Hn. symmetry. apply of_Z_neg.
Qed.

Lemma neg_involutive x : Float64.neg (Float64.neg x) = x.
Proof. destruct x as [s|s| |s m e]; cbn; rewrite ?negb_involutive; reflexivity. Qed.

Lemma binary_round_aux_negb s m e l :
  binary_round_aux Float64.mantissa_bits Float64.emax (negb s) m e l
  = Float64.neg (binary_round_aux Float64.mantissa_bits Float64.emax s m e l).
Proof.
  destruct s; cbn [negb].
  - rewrite (binary_round_aux_neg m e l), neg_involutive. reflexivity.
  - apply binary_round_aux_neg.
Qed.

(** The product with a negated factor is the negated product. *)
Lemma mul_neg_l x y : Float64.mul (Float64.neg x) y = Float64.neg (Float64.mul x y).
Proof.
  destruct x as [sx|sx| |sx mx ex], y as [sy|sy| |sy my ey]; try reflexivity;
    unfold Float64.mul, Float64.neg, SFmul, SFopp;
    try (destruct sx, sy; reflexivity).
  replace (xorb (negb sx) sy) with (negb (xorb sx sy)) by (destruct sx, sy; reflexivity).
  apply binary_round_aux_negb.
Qed.

Lemma gauge_call_frame conv g c :
  prec (gauge_call conv g c) = prec g /\ desc (gauge_call conv g c) = desc g.
Proof. destruct c; split; reflexivity. Qed.

Lemma gauge_calls_frame conv cs :
  forall g, prec (gauge_calls conv g cs) = prec g /\ desc (gauge_calls conv g cs) = desc g.
Proof.
  unfold gauge_calls. induction cs as [|c cs IH]; intros g; cbn [fold_left].
  - split; reflexivity.
  - destruct (IH (gauge_call conv g c)) as [Ep Ed].
    destruct (gauge_call_frame conv g c) as [Ep' Ed']. split; congruence.
Qed.

Lemma counter_call_frame conv fpc c :
  prec (gauge (fst (counter_call conv fpc c))) = prec (gauge fpc)
  /\ desc (gauge (fst (counter_call conv fpc c))) = desc (gauge fpc).
Proof.
  destruct c; cbn [counter_call on_gauge fst gauge]; try (split; reflexivity).
  unfold Counter.Add. destruct (Float64.ltb v Float64.zero); split; reflexivity.
Qed.

(** X1: no call writes the scale factor or the descriptor.  After any
    sequence of calls on a gauge, or on a counter (a panicking call
    included), both are what the constructor stored. *)
Theorem calls_keep_scale_and_descriptor :
  forall (conv : float64 -> Z) (cs : list call),
    (forall g, prec (gauge_calls conv g cs) = prec g
               /\ desc (gauge_calls conv g cs) = desc g)
    /\ (forall fpc, prec (gauge (fst (counter_calls conv fpc cs))) = prec (gauge fpc)
                    /\ desc (gauge (fst (counter_calls conv fpc cs))) = desc (gauge fpc)).
Proof.
  intros conv cs. split; [intros g; apply gauge_calls_frame | ].
  induction cs as [|c cs IH]; intros fpc; cbn [counter_calls].
  - split; reflexivity.
  - pose proof (counter_call_frame conv fpc c) as [Ep Ed].
    destruct (counter_call conv fpc c) as [fpc' [|msg]]; cbn [fst] in *.
    + destruct (IH fpc') as [Ep' Ed']. split; congruence.
    + split; assumption.
Qed.

Lemma with_val_same g : with_val g (val g) = g.
Proof. destruct g; reflexivity. Qed.

Lemma with_val_twice g x y : with_val (with_val g x) y = with_val g y.
Proof. reflexivity. Qed.

(** X2: [Inc] and [Dec] undo each other on every cell, whatever the scale
    factor: the two int64 deltas cancel modulo [2^64]. *)
Theorem Inc_and_Dec_cancel :
  forall g : FixedPrecisionGauge,
    in_int64 (val g) = true ->
    Gauge.Dec (Gauge.Inc g) = g /\ Gauge.Inc (Gauge.Dec g) = g.
Proof.
  intros g Hv.
  unfold Gauge.Inc, Gauge.Dec, Gauge.add, atomic_AddInt64.
  cbn [with_val val prec desc].
  split; rewrite !wrap_int64_add_r, wrap_int64_add_l;
    match goal with
    | |- context [wrap_int64 ?z] => replace z with (val g) by lia
    end; rewrite (wrap_int64_id _ Hv); destruct g; reflexivity.
Qed.

Lemma Inc_and_Dec_cancel_witness :
  in_int64 (val (with_val (Gauge.NewFixedPrecisionGauge arm64_uint test_opts 19) 7)) = true
  /\ Gauge.Dec (Gauge.Inc (with_val (Gauge.NewFixedPrecisionGauge arm64_uint test_opts 19) 7))
     = with_val (Gauge.NewFixedPrecisionGauge arm64_uint test_opts 19) 7.
Proof.
  split; [reflexivity | ].
  exact (proj1 (Inc_and_Dec_cancel
                  (with_val (Gauge.NewFixedPrecisionGauge arm64_uint test_opts 19) 7) eq_refl)).
Defined.

Lemma Sub_unfold conv g v :
  Float64.valid v = true -> Gauge.Sub conv g v = Gauge.Add conv g (Float64.neg v).
Proof. intros Hv. unfold Gauge.Sub. rewrite (mul_minus_one v Hv). reflexivity. Qed.

(** X3: [Sub(v)] undoes [Add(v)] and [Add(v)] undoes [Sub(v)], whenever the
    scaled value [v * float64(scaleFactor)] truncates to an integer [d] with
    [-d] and [d] both int64. *)
Theorem Sub_and_Add_cancel :
  forall (conv : float64 -> Z) (g : FixedPrecisionGauge) (v : float64) (d : Z),
    Float64.valid v = true ->
    in_int64 (val g) = true ->
    Float64.trunc (Float64.mul v (Float64.of_Z (prec g))) = Some d ->
    - max_int64 <= d <= max_int64 ->
    Gauge.Sub conv (Gauge.Add conv g v) v = g
    /\ Gauge.Add conv (Gauge.Sub conv g v) v = g.
Proof.
  intros conv g v d Hvalid Hv Ht Hd.
  assert (Hd1 : in_int64 d = true)
    by (unfold in_int64, min_int64, max_int64 in *;
        apply andb_true_intro; split; apply Z.leb_le; lia).
  assert (Hd2 : in_int64 (- d) = true)
    by (unfold in_int64, min_int64, max_int64 in *;
        apply andb_true_intro; split; apply Z.leb_le; lia).
  assert (Ht' : Float64.trunc (Float64.mul (Float64.neg v) (Float64.of_Z (prec g))) = Some (- d))
    by (rewrite mul_neg_l; apply trunc_neg, Ht).
  rewrite !Sub_unfold by exact Hvalid.
  unfold Gauge.Add, atomic_AddInt64. cbn [with_val val prec desc].
  rewrite (int64_of_float_exact conv _ _ Ht Hd1), (int64_of_float_exact conv _ _ Ht' Hd2).
  split; rewrite wrap_int64_add_l;
    match goal with
    | |- context [wrap_int64 ?z] => replace z with (val g) by lia
    end; rewrite (wrap_int64_id _ Hv); destruct g; reflexivity.
Qed.

Lemma Sub_and_Add_cancel_witness :
  Float64.valid lit_42_3 = true
  /\ in_int64 (val (with_val (Gauge.NewFixedPrecisionGauge arm64_uint test_opts 3) 1000)) = true
  /\ Float64.trunc (Float64.mul lit_42_3
        (Float64.of_Z (prec (with_val (Gauge.NewFixedPrecisionGauge arm64_uint test_opts 3) 1000))))
     = Some 42300
  /\ - max_int64 <= 42300 <= max_int64
  /\ Gauge.Sub arm64_int64
       (Gauge.Add arm64_int64
          (with_val (Gauge.NewFixedPrecisionGauge arm64_uint test_opts 3) 1000) lit_42_3)
       lit_42_3
     = with_val (Gauge.NewFixedPrecisionGauge arm64_uint test_opts 3) 1000.
Proof.
  assert (B : - max_int64 <= 42300 <= max_int64) by (unfold max_int64; lia).
  split; [reflexivity | split; [reflexivity | split; [reflexivity | split; [exact B | ]]]].
  exact (proj1 (Sub_and_Add_cancel arm64_int64
                  (with_val (Gauge.NewFixedPrecisionGauge arm64_uint test_opts 3) 1000)
                  lit_42_3 42300 eq_refl eq_refl eq_refl B)).
Defined.

Lemma additive_call conv g c :
  additive c = true -> gauge_call conv g c = atomic_AddInt64 g (delta_of conv (prec g) c).
Proof. destruct c; intros H; try discriminate H; reflexivity. Qed.

Lemma additive_calls_swap conv g x y :
  additive x = true -> additive y = true ->
  gauge_call conv (gauge_call conv g x) y = gauge_call conv (gauge_call conv g y) x.
Proof.
  intros Hx Hy. rewrite !additive_call by assumption.
  unfold atomic_AddInt64, with_val. cbn [val prec desc].
  rewrite !wrap_int64_add_l.
  replace (val g + delta_of conv (prec g) x + delta_of conv (prec g) y)
    with (val g + delta_of conv (prec g) y + delta_of conv (prec g) x) by lia.
  reflexivity.
Qed.

(** X4: calls that add ([Inc], [Dec], [Add], [Sub]) commute: a sequence of
    them and any reordering of it leave the same cell. *)
Theorem additive_calls_commute :
  forall (conv : float64 -> Z) (cs cs' : list call),
    Permutation cs cs' ->
    Forall (fun c => additive c = true) cs ->
    forall g, gauge_calls conv g cs = gauge_calls conv g cs'.
Proof.
  intros conv cs cs' HP. unfold gauge_calls.
  induction HP as [ | x l l' HP IH | x y l | l l' l'' HP1 IH1 HP2 IH2]; intros HF g.
  - reflexivity.
  - cbn [fold_left]. apply IH. inversion HF; assumption.
  - cbn [fold_left]. inversion HF as [ | ? ? Hy HF']. inversion HF' as [ | ? ? Hx _].
    rewrite (additive_calls_swap conv g y x Hy Hx). reflexivity.
  - rewrite (IH1 HF g). apply IH2. apply (Permutation_Forall HP1 HF).
Qed.

Lemma additive_calls_commute_witness :
  Permutation [call_Inc; call_Sub lit_42_3; call_Dec] [call_Dec; call_Inc; call_Sub lit_42_3]
  /\ Forall (fun c => additive c = true) [call_Inc; call_Sub lit_42_3; call_Dec]
  /\ gauge_calls arm64_int64 (Gauge.NewFixedPrecisionGauge arm64_uint test_opts 3)
       [call_Inc; call_Sub lit_42_3; call_Dec]
     = gauge_calls arm64_int64 (Gauge.NewFixedPrecisionGauge arm64_uint test_opts 3)
         [call_Dec; call_Inc; call_Sub lit_42_3].
Proof.
  assert (P : Permutation [call_Inc; call_Sub lit_42_3; call_Dec]
                          [call_Dec; call_Inc; call_Sub lit_42_3]).
  { apply Permutation_sym. apply (Permutation_cons_append [call_Inc; call_Sub lit_42_3] call_Dec). }
  assert (F : Forall (fun c => additive c = true) [call_Inc; call_Sub lit_42_3; call_Dec])
    by (repeat constructor).
  split; [exact P | split; [exact F | ]].
  exact (additive_calls_commute arm64_int64 _ _ P F
           (Gauge.NewFixedPrecisionGauge arm64_uint test_opts 3)).
Defined.

(** X5: [Set] replaces whatever the cell held: after any sequence of calls,
    [Set(v)] leaves the cell that [Set(v)] alone leaves. *)
Theorem Set_forgets_earlier_calls :
  forall (conv : float64 -> Z) (g : FixedPrecisionGauge) (cs : list call) (v : float64),
    Gauge.Set_ conv (gauge_calls conv g cs) v = Gauge.Set_ conv g v
    /\ gauge_calls conv g (cs ++ [call_Set v]) = Gauge.Set_ conv g v.
Proof.
  intros conv g cs v.
  assert (E : Gauge.Set_ conv (gauge_calls conv g cs) v = Gauge.Set_ conv g v).
  { destruct (gauge_calls_frame conv cs g) as [Ep Ed].
    unfold Gauge.Set_, atomic_StoreInt64, with_val. rewrite Ep, Ed. reflexivity. }
  split; [exact E | ].
  unfold gauge_calls in *. rewrite fold_left_app. cbn [fold_left gauge_call]. exact E.
Qed.

(** X6: an integer survives [Set] and [Value]: when the scale factor is a
    positive int64 and [|n| * scaleFactor] is below [2^53], [Set(float64(n))]
    stores [n * scaleFactor] and [Value()] returns [float64(n)]. *)
Theorem Set_then_Value_returns_the_integer :
  forall (conv : float64 -> Z) (g : FixedPrecisionGauge) (n : Z),
    0 < prec g <= max_int64 ->
    Z.abs n * prec g < 2 ^ 53 ->
    val (Gauge.Set_ conv g (Float64.of_Z n)) = n * prec g
    /\ Gauge.Value (Gauge.Set_ conv g (Float64.of_Z n)) = Float64.of_Z n.
Proof.
  intros conv g n Hp Hn. unfold max_int64 in Hp.
  assert (Hn' : - 2 ^ 53 < n < 2 ^ 53) by nia.
  assert (Hi : in_int64 n = true)
    by (unfold in_int64, min_int64, max_int64; apply andb_true_intro; split; apply Z.leb_le; lia).
  assert (Hpi : in_int64 (prec g) = true)
    by (unfold in_int64, min_int64, max_int64; apply andb_true_intro; split; apply Z.leb_le; lia).
  assert (Hnp : in_int64 (n * prec g) = true)
    by (unfold in_int64, min_int64, max_int64; apply andb_true_intro; split; apply Z.leb_le; nia).
  assert (E : val (Gauge.Set_ conv g (Float64.of_Z n)) = n * prec g).
  { unfold Gauge.Set_, atomic_StoreInt64, with_val. cbn [val].
    rewrite (int64_of_float_exact conv _ _ (trunc_of_Z n Hn') Hi), (wrap_int64_id _ Hpi).
    apply (wrap_int64_id _ Hnp). }
  split; [exact E | ].
  unfold Gauge.Value, atomic_LoadInt64. rewrite E.
  change (prec (Gauge.Set_ conv g (Float64.of_Z n))) with (prec g).
  apply (value_at_multiple (prec g) n); lia.
Qed.

Lemma Set_then_Value_returns_the_integer_witness :
  0 < prec (Gauge.NewFixedPrecisionGauge arm64_uint test_opts 3) <= max_int64
  /\ Z.abs (-1700000000) * prec (Gauge.NewFixedPrecisionGauge arm64_uint test_opts 3) < 2 ^ 53
  /\ Gauge.Value (Gauge.Set_ arm64_int64 (Gauge.NewFixedPrecisionGauge arm64_uint test_opts 3)
                    (Float64.of_Z (-1700000000)))
     = Float64.of_Z (-1700000000).
Proof.
  assert (H1 : 0 < prec (Gauge.NewFixedPrecisionGauge arm64_uint test_opts 3) <= max_int64)
    by (vm_compute; split; [reflexivity | discriminate]).
  assert (H2 : Z.abs (-1700000000) * prec (Gauge.NewFixedPrecisionGauge arm64_uint test_opts 3)
               < 2 ^ 53) by (vm_compute; reflexivity).
  split; [exact H1 | split; [exact H2 | ]].
  exact (proj2 (Set_then_Value_returns_the_integer arm64_int64
                  (Gauge.NewFixedPrecisionGauge arm64_uint test_opts 3) (-1700000000) H1 H2)).
Defined.

(** X7: at every precision [p <= 18], [n] goroutines calling [Inc()] [m]
    times each on one fresh cell can always run to completion, and as long
    as [n * m * 10^p] is below [2^53] every complete interleaving ends with
    the raw value [n * m * 10^p] and [Value()] returns [float64(n * m)]. *)
Theorem concurrent_increments_at_any_precision :
  forall (uconv : float64 -> Z) (opts : Opts) (p : Z) (n : nat) (m : N),
    0 <= p <= 18 ->
    Z.of_nat n * Z.of_N m * 10 ^ p < 2 ^ 53 ->
    let c0 := spawn (Gauge.NewFixedPrecisionGauge uconv opts p) n m in
    (exists c', steps c0 c' /\ finished c')
    /\ (forall c', steps c0 c' -> finished c' ->
          val (cell c') = Z.of_nat n * Z.of_N m * 10 ^ p
          /\ Gauge.Value (cell c') = Float64.of_Z (Z.of_nat n * Z.of_N m)).
Proof.
  intros uconv opts p n m Hp Hnm c0. split; [apply complete_run_exists | ].
  intros c' Hs Hf.
  destruct (NewFixedPrecisionGauge_scale uconv opts p ltac:(lia)) as [Ep Ev0].
  destruct (concurrent_Inc_total (Gauge.NewFixedPrecisionGauge uconv opts p) n m c'
              ltac:(rewrite Ev0; reflexivity) Hs Hf) as (Ep' & Ev & _).
  rewrite Ev0, Ep, Z.add_0_l in Ev. rewrite Ep in Ep'.
  assert (H10 : 0 < 10 ^ p) by (apply Z.pow_pos_nonneg; lia).
  assert (H18 : 10 ^ p <= 10 ^ 18) by (apply Z.pow_le_mono_r; lia).
  assert (E : val (cell c') = Z.of_nat n * Z.of_N m * 10 ^ p).
  { rewrite Ev. apply wrap_int64_id. unfold in_int64, min_int64, max_int64.
    apply andb_true_intro; split; apply Z.leb_le; nia. }
  split; [exact E | ].
  unfold Gauge.Value, atomic_LoadInt64. rewrite E, Ep'.
  apply (value_at_multiple (10 ^ p) (Z.of_nat n * Z.of_N m)); [lia | ].
  rewrite Z.abs_eq by lia. exact Hnm.
Qed.

Lemma concurrent_increments_at_any_precision_witness :
  0 <= 3 <= 18
  /\ Z.of_nat 4 * Z.of_N 250 * 10 ^ 3 < 2 ^ 53
  /\ (forall c', steps (spawn (Gauge.NewFixedPrecisionGauge arm64_uint test_opts 3) 4 250) c' ->
        finished c' ->
        val (cell c') = 1000000 /\ Gauge.Value (cell c') = Float64.of_Z 1000).
Proof.
  assert (H1 : 0 <= 3 <= 18) by lia.
  assert (H2 : Z.of_nat 4 * Z.of_N 250 * 10 ^ 3 < 2 ^ 53) by (vm_compute; reflexivity).
  split; [exact H1 | split; [exact H2 | ]].
  exact (proj2 (concurrent_increments_at_any_precision arm64_uint test_opts 3 4 250 H1 H2)).
Defined.

Lemma SetToCurrentTime_val conv g now :
  - 2 ^ 53 < now < 2 ^ 53 -> 0 <= prec g <= max_int64 ->
  val (Gauge.SetToCurrentTime conv g now) = wrap_int64 (now * prec g).
Proof.
  intros Hn Hp. unfold max_int64 in Hp.
  unfold Gauge.SetToCurrentTime, Gauge.Set_, atomic_StoreInt64, with_val. cbn [val].
  assert (Hi : in_int64 now = true)
    by (unfold in_int64, min_int64, max_int64; apply andb_true_intro; split; apply Z.leb_le; lia).
  assert (Hpi : in_int64 (prec g) = true)
    by (unfold in_int64, min_int64, max_int64; apply andb_true_intro; split; apply Z.leb_le; lia).
  rewrite (int64_of_float_exact conv _ _ (trunc_of_Z now Hn) Hi), (wrap_int64_id _ Hpi).
  reflexivity.
Qed.

(** X8: [SetToCurrentTime] is safe up to precision 9 and no further, as its
    comment warns.  For every Unix time up to 9223372036 (the year 2262)
    and every precision [p <= 9] the cell stores exactly [now * 10^p];
    at precision 10 every time from 922337204 (1999) on overflows the
    int64 and the stored value is not [now * 10^10]. *)
Theorem SetToCurrentTime_is_exact_up_to_precision_9 :
  forall (conv uconv : float64 -> Z) (opts : Opts) (now : Z),
    0 <= now <= 9223372036 ->
    (forall p, 0 <= p <= 9 ->
       val (Gauge.SetToCurrentTime conv (Gauge.NewFixedPrecisionGauge uconv opts p) now)
       = now * 10 ^ p)
    /\ (922337204 <= now ->
        val (Gauge.SetToCurrentTime conv (Gauge.NewFixedPrecisionGauge uconv opts 10) now)
        <> now * 10 ^ 10).
Proof.
  intros conv uconv opts now Hn. split.
  - intros p Hp.
    destruct (NewFixedPrecisionGauge_scale uconv opts p ltac:(lia)) as [Ep _].
    assert (H10 : 0 < 10 ^ p) by (apply Z.pow_pos_nonneg; lia).
    assert (H9 : 10 ^ p <= 10 ^ 9) by (apply Z.pow_le_mono_r; lia).
    rewrite SetToCurrentTime_val by (rewrite ?Ep; unfold max_int64; lia).
    rewrite Ep. apply wrap_int64_id. unfold in_int64, min_int64, max_int64.
    apply andb_true_intro; split; apply Z.leb_le; nia.
  - intros Hlate.
    destruct (NewFixedPrecisionGauge_scale uconv opts 10 ltac:(lia)) as [Ep _].
    rewrite SetToCurrentTime_val by (rewrite ?Ep; unfold max_int64; lia).
    rewrite Ep. intros E.
    pose proof (wrap_int64_range (now * 10 ^ 10)) as R. rewrite E in R.
    unfold in_int64, min_int64, max_int64 in R. apply andb_prop in R.
    destruct R as [_ R]. apply Z.leb_le in R. lia.
Qed.

Lemma SetToCurrentTime_is_exact_up_to_precision_9_witness :
  0 <= 1793491200 <= 9223372036
  /\ val (Gauge.SetToCurrentTime arm64_int64
            (Gauge.NewFixedPrecisionGauge arm64_uint test_opts 9) 1793491200)
     = 1793491200 * 10 ^ 9
  /\ val (Gauge.SetToCurrentTime arm64_int64
            (Gauge.NewFixedPrecisionGauge arm64_uint test_opts 10) 1793491200)
     <> 1793491200 * 10 ^ 10.
Proof.
  assert (H : 0 <= 1793491200 <= 9223372036) by lia.
  split; [exact H | split].
  - exact (proj1 (SetToCurrentTime_is_exact_up_to_precision_9 arm64_int64 arm64_uint
                    test_opts 1793491200 H) 9 ltac:(lia)).
  - exact (proj2 (SetToCurrentTime_is_exact_up_to_precision_9 arm64_int64 arm64_uint
                    test_opts 1793491200 H) ltac:(lia)).
Defined.

Lemma Pow10_above_uint n : 20 <= n -> above_uint n = true.
Proof.
  intros Hn. destruct (Z.le_gt_cases n 308) as [L | G].
  - apply (all_between_spec 20 308); [vm_compute; reflexivity | lia].
  - unfold above_uint, Pow10.
    replace ((0 <=? n) && (n <=? 308)) with false
      by (symmetry; apply andb_false_iff; right; apply Z.leb_gt; lia).
    replace ((-323 <=? n) && (n <=? 0)) with false
      by (symmetry; apply andb_false_iff; right; apply Z.leb_gt; lia).
    replace (0 <? n) with true by (symmetry; apply Z.ltb_lt; lia). reflexivity.
Qed.

Lemma Pow10_below_one n : n < 0 -> below_one n = true.
Proof.
  intros Hn. destruct (Z.le_gt_cases (-323) n) as [L | G].
  - apply (all_between_spec (-323) (-1)); [vm_compute; reflexivity | lia].
  - unfold below_one, Pow10.
    replace ((0 <=? n) && (n <=? 308)) with false
      by (symmetry; apply andb_false_iff; left; apply Z.leb_gt; lia).
    replace ((-323 <=? n) && (n <=? 0)) with false
      by (symmetry; apply andb_false_iff; left; apply Z.leb_gt; lia).
    replace (0 <? n) with false by (symmetry; apply Z.ltb_ge; lia). reflexivity.
Qed.

(** X9: with at most 19 digits the two constructors and the two factories
    build the same cell: raw value 0, scale factor [10^p], the descriptor
    made from the options, and [Value()] is 0. *)
Theorem constructors_build_the_scaled_cell :
  forall (uconv : float64 -> Z) (opts : Opts) (p : Z),
    0 <= p <= 19 ->
    let g := Gauge.NewFixedPrecisionGauge uconv opts p in
    val g = 0
    /\ prec g = 10 ^ p
    /\ desc g = NewDesc (BuildFQName (Namespace opts) (Subsystem opts) (Name opts))
                        (Help opts) [] (ConstLabels opts)
    /\ Gauge.Value g = Float64.zero
    /\ gauge (Counter.NewFixedPrecisionCounter uconv opts p) = g
    /\ NewGauge uconv opts p = g
    /\ gauge (NewCounter uconv opts p) = g.
Proof.
  intros uconv opts p Hp g.
  destruct (NewFixedPrecisionGauge_scale uconv opts p Hp) as [Ep Ev].
  repeat split; try assumption.
  unfold Gauge.Value, atomic_LoadInt64, g. rewrite Ev, Ep.
  assert (0 < 10 ^ p) by (apply Z.pow_pos_nonneg; lia).
  assert (10 ^ p <= 10 ^ 19) by (apply Z.pow_le_mono_r; lia).
  apply (value_at_zero (10 ^ p)). lia.
Qed.

Lemma constructors_build_the_scaled_cell_witness :
  0 <= 19 <= 19
  /\ prec (Gauge.NewFixedPrecisionGauge arm64_uint test_opts 19) = 10 ^ 19
  /\ gauge (NewCounter arm64_uint test_opts 19)
     = Gauge.NewFixedPrecisionGauge arm64_uint test_opts 19.
Proof.
  assert (H : 0 <= 19 <= 19) by lia.
  split; [exact H | split].
  - exact (proj1 (proj2 (constructors_build_the_scaled_cell arm64_uint test_opts 19 H))).
  - exact (proj2 (proj2 (proj2 (proj2 (proj2 (proj2
             (constructors_build_the_scaled_cell arm64_uint test_opts 19 H))))))).
Defined.

Lemma wrap_uint_range z : 0 <= wrap_uint z < 2 ^ 64.
Proof. unfold wrap_uint. apply Z.mod_pos_bound. lia. Qed.

(** X10: a precision the constructor cannot honour.  From 20 digits on
    [10^p] does not fit a uint: the scale factor is whatever the target
    makes of the unrepresentable conversion, never [10^p].  From [2^63] on
    the digit count turns negative as an int, the power is below 1 and
    the scale factor is 0: [Inc] no longer changes the cell and [Value()]
    is NaN. *)
Theorem precision_out_of_range :
  forall (uconv : float64 -> Z) (opts : Opts) (p : Z),
    let g := Gauge.NewFixedPrecisionGauge uconv opts p in
    (20 <= p <= max_int64 ->
       prec g = wrap_uint (uconv (Pow10 p)) /\ prec g <> 10 ^ p)
    /\ (2 ^ 63 <= p <= max_uint ->
          prec g = 0 /\ Gauge.Inc g = g /\ Gauge.Dec g = g /\ Gauge.Value g = Float64.nan).
Proof.
  intros uconv opts p g. split.
  - intros Hp.
    assert (Ew : wrap_int64 p = p).
    { apply wrap_int64_id. unfold in_int64, min_int64, max_int64 in *.
      apply andb_true_intro; split; apply Z.leb_le; lia. }
    assert (E : prec g = wrap_uint (uconv (Pow10 p))).
    { unfold g, Gauge.NewFixedPrecisionGauge. cbn [prec]. rewrite Ew.
      pose proof (Pow10_above_uint p ltac:(lia)) as A. unfold above_uint in A.
      unfold uint_of_float. destruct (Float64.trunc (Pow10 p)) as [z|]; [ | reflexivity].
      apply negb_true_iff in A. rewrite A. reflexivity. }
    split; [exact E | ].
    rewrite E. pose proof (wrap_uint_range (uconv (Pow10 p))) as R.
    assert (10 ^ 20 <= 10 ^ p) by (apply Z.pow_le_mono_r; lia). lia.
  - intros Hp.
    assert (Ew : wrap_int64 p < 0).
    { unfold wrap_int64, max_uint in *.
      replace (p + 2 ^ 63) with (p - 2 ^ 63 + 1 * 2 ^ 64) by lia.
      rewrite Z.mod_add by lia. rewrite Z.mod_small by lia. lia. }
    assert (E : prec g = 0).
    { unfold g, Gauge.NewFixedPrecisionGauge. cbn [prec].
      pose proof (Pow10_below_one _ Ew) as B. unfold below_one in B.
      unfold uint_of_float. destruct (Float64.trunc (Pow10 (wrap_int64 p))) as [z|];
        [ | discriminate B].
      apply Z.eqb_eq in B. subst z. reflexivity. }
    split; [exact E | ].
    assert (Eg : g = {| val := 0; prec := 0; desc := desc g |}).
    { unfold g, Gauge.NewFixedPrecisionGauge in *. cbn [prec desc] in *. rewrite E.
      reflexivity. }
    rewrite Eg. repeat split.
Qed.

Lemma precision_out_of_range_witness :
  20 <= 20 <= max_int64 /\ 2 ^ 63 <= max_uint <= max_uint
  /\ prec (Gauge.NewFixedPrecisionGauge arm64_uint test_opts 20) = max_uint
  /\ prec (Gauge.NewFixedPrecisionGauge arm64_uint test_opts max_uint) = 0.
Proof.
  assert (H1 : 20 <= 20 <= max_int64) by (unfold max_int64; lia).
  assert (H2 : 2 ^ 63 <= max_uint <= max_uint) by (unfold max_uint; lia).
  split; [exact H1 | split; [exact H2 | split]].
  - rewrite (proj1 (proj1 (precision_out_of_range arm64_uint test_opts 20) H1)).
    vm_compute. reflexivity.
  - exact (proj1 (proj2 (precision_out_of_range arm64_uint test_opts max_uint) H2)).
Defined.

(** X11: [Value()] follows the raw value: of two cells with one scale
    factor, not 0, the one with the smaller raw value never reports the
    larger [Value()]. *)
Theorem Value_is_monotone_in_the_raw_value :
  forall g1 g2 : FixedPrecisionGauge,
    prec g1 = prec g2 ->
    0 < prec g1 <= max_uint ->
    in_int64 (val g1) = true -> in_int64 (val g2) = true ->
    val g1 <= val g2 ->
    Float64.leb (Gauge.Value g1) (Gauge.Value g2) = true.
Proof.
  intros g1 g2 Ep Hp H1 H2 Hle.
  unfold Gauge.Value, atomic_LoadInt64. rewrite <- Ep.
  unfold in_int64, min_int64, max_int64 in *. unfold max_uint in Hp.
  apply andb_prop in H1. destruct H1 as [L1 U1]. apply Z.leb_le in L1. apply Z.leb_le in U1.
  apply andb_prop in H2. destruct H2 as [L2 U2]. apply Z.leb_le in L2. apply Z.leb_le in U2.
  apply (value_at_mono (prec g1) (val g1) (val g2)); lia.
Qed.

Lemma Value_is_monotone_in_the_raw_value_witness :
  Float64.leb
    (Gauge.Value (Gauge.Dec (Gauge.NewFixedPrecisionGauge arm64_uint test_opts 3)))
    (Gauge.Value (Gauge.Add arm64_int64 (Gauge.NewFixedPrecisionGauge arm64_uint test_opts 3)
                    lit_42_3)) = true.
Proof.
  apply Value_is_monotone_in_the_raw_value;
    [reflexivity | vm_compute; split; [reflexivity | discriminate]
     | reflexivity | reflexivity | vm_compute; discriminate].
Defined.

Lemma counter_eta fpc : {| gauge := gauge fpc |} = fpc.
Proof. destruct fpc; reflexivity. Qed.

(** X12: reading does not interfere.  [Value] and [Write] calls can be
    dropped from any sequence of calls on a counter without changing the
    cell it leaves or the way it ends. *)
Theorem reads_can_be_dropped :
  forall (conv : float64 -> Z) (cs : list call) (fpc : FixedPrecisionCounter),
    counter_calls conv fpc cs
    = counter_calls conv fpc (filter (fun c => negb (is_read c)) cs).
Proof.
  intros conv cs. induction cs as [|c cs IH]; intros fpc; [reflexivity | ].
  cbn [filter]. destruct (is_read c) eqn:R; cbn [negb].
  - destruct c; try discriminate R; cbn [counter_calls counter_call on_gauge Gauge.Write fst];
      rewrite counter_eta; apply IH.
  - cbn [counter_calls]. destruct (counter_call conv fpc c) as [fpc' [|msg]]; [apply IH | reflexivity].
Qed.

Lemma gauge_calls_snoc conv g cs c :
  gauge_calls conv g (cs ++ [c]) = gauge_call conv (gauge_calls conv g cs) c.
Proof. unfold gauge_calls. rewrite fold_left_app. reflexivity. Qed.

(** X13: the counter is the gauge behind a guard.  A sequence of calls on
    a counter returns normally exactly when no [Add] in it has an argument
    below zero, and then it leaves the cell the same calls leave on the
    embedded gauge. *)
Theorem counter_is_the_gauge_behind_a_guard :
  forall (conv : float64 -> Z) (cs : list call) (fpc : FixedPrecisionCounter),
    (snd (counter_calls conv fpc cs) = Normal <-> existsb guarded cs = false)
    /\ (existsb guarded cs = false ->
        gauge (fst (counter_calls conv fpc cs)) = gauge_calls conv (gauge fpc) cs).
Proof.
  intros conv cs. unfold gauge_calls.
  induction cs as [|c cs IH]; intros fpc.
  - split; [split; reflexivity | reflexivity].
  - cbn [counter_calls existsb fold_left].
    assert (Step : (guarded c = true
                    /\ exists msg, counter_call conv fpc c = (fpc, Panic msg))
                   \/ (guarded c = false
                       /\ counter_call conv fpc c
                          = ({| gauge := gauge_call conv (gauge fpc) c |}, Normal))).
    { destruct c; try (right; split; reflexivity).
      cbn [guarded counter_call]. unfold Counter.Add.
      destruct (Float64.ltb v Float64.zero);
        [left; split; [reflexivity | eexists; reflexivity] | right; split; reflexivity]. }
    destruct Step as [[G (msg & E)] | [G E]]; rewrite G, E; cbn [orb snd fst].
    + split; [split; discriminate | discriminate].
    + apply (IH {| gauge := gauge_call conv (gauge fpc) c |}).
Qed.

Lemma counter_is_the_gauge_behind_a_guard_witness :
  existsb guarded [call_Inc; call_Add lit_42_3; call_Write empty_Metric] = false
  /\ gauge (fst (counter_calls arm64_int64
                   (Counter.NewFixedPrecisionCounter arm64_uint test_opts 3)
                   [call_Inc; call_Add lit_42_3; call_Write empty_Metric]))
     = gauge_calls arm64_int64 (Gauge.NewFixedPrecisionGauge arm64_uint test_opts 3)
         [call_Inc; call_Add lit_42_3; call_Write empty_Metric].
Proof.
  split; [reflexivity | ].
  exact (proj2 (counter_is_the_gauge_behind_a_guard arm64_int64
                  [call_Inc; call_Add lit_42_3; call_Write empty_Metric]
                  (Counter.NewFixedPrecisionCounter arm64_uint test_opts 3)) eq_refl).
Defined.

Lemma digits2_product_lower a b :
  Zpos (digits2_pos a) + Zpos (digits2_pos b) - 1 <= Zpos (digits2_pos (a * b)).
Proof.
  pose proof (digits2_bounds a) as [Ba _]. pose proof (digits2_bounds b) as [Bb _].
  pose proof (digits2_bounds (a * b)) as [_ Bab].
  destruct (Z.le_gt_cases (Zpos (digits2_pos a) + Zpos (digits2_pos b) - 1)
              (Zpos (digits2_pos (a * b)))) as [L | G]; [exact L | exfalso].
  assert (H : 2 ^ Zpos (digits2_pos (a * b))
              <= 2 ^ ((Zpos (digits2_pos a) - 1) + (Zpos (digits2_pos b) - 1)))
    by (apply Z.pow_le_mono_r; lia).
  rewrite Z.pow_add_r in H by lia. rewrite Pos2Z.inj_mul in Bab. nia.
Qed.

(** A product that is an integer below [2^53] is computed exactly. *)
Lemma mul_exact a b :
  Zpos a * Zpos b < 2 ^ 53 ->
  Float64.mul (Float64.of_Z (Zpos a)) (Float64.of_Z (Zpos b)) = Float64.of_Z (Zpos a * Zpos b).
Proof.
  intros H. change (Zpos a * Zpos b) with (Zpos (a * b)).
  assert (Ha : Zpos a < 2 ^ 53) by nia. assert (Hb : Zpos b < 2 ^ 53) by nia.
  destruct (of_Z_exact (a * b) H) as (kab & Eab & ->).
  destruct (of_Z_exact b Hb) as (kb & Eb & ->).
  destruct (of_Z_exact a Ha) as (ka & Ea & ->).
  pose proof (digits2_product_lower a b) as Dab.
  unfold Float64.mul, SFmul. cbn [xorb].
  assert (Es : (Pos.shiftl_nat a ka * Pos.shiftl_nat b kb)%positive
               = Pos.shiftl_nat (Pos.shiftl_nat (a * b) kab) (ka + kb - kab)).
  { apply Pos2Z.inj. rewrite Pos2Z.inj_mul, !shiftl_nat_value, Pos2Z.inj_mul.
    assert (P : 2 ^ Z.of_nat kab * 2 ^ Z.of_nat (ka + kb - kab)
                = 2 ^ Z.of_nat ka * 2 ^ Z.of_nat kb)
      by (rewrite <- !Z.pow_add_r by lia; f_equal; lia).
    replace (Zpos a * Zpos b * 2 ^ Z.of_nat kab * 2 ^ Z.of_nat (ka + kb - kab))
      with (Zpos a * Zpos b * (2 ^ Z.of_nat kab * 2 ^ Z.of_nat (ka + kb - kab))) by ring.
    rewrite P. ring. }
  rewrite Es, binary_round_aux_exact by (rewrite ?shiftl_nat_digits; lia).
  f_equal. lia.
Qed.

Lemma Inc_repeat conv k :
  forall g, in_int64 (val g) = true ->
    gauge_calls conv g (repeat call_Inc k)
    = with_val g (wrap_int64 (val g + Z.of_nat k * wrap_int64 (prec g)))
    /\ gauge_calls conv g (repeat call_Dec k)
       = with_val g (wrap_int64 (val g + - Z.of_nat k * wrap_int64 (prec g))).
Proof.
  unfold gauge_calls. induction k as [|k IH]; intros g Hv.
  - cbn [repeat fold_left Z.of_nat Z.opp]. rewrite Z.mul_0_l, Z.add_0_r.
    rewrite (wrap_int64_id _ Hv). destruct g; split; reflexivity.
  - cbn [repeat fold_left gauge_call].
    destruct (IH (Gauge.Inc g) ltac:(apply wrap_int64_range)) as [E1 _].
    destruct (IH (Gauge.Dec g) ltac:(apply wrap_int64_range)) as [_ E2].
    rewrite E1, E2, Nat2Z.inj_succ.
    unfold Gauge.Inc, Gauge.Dec, Gauge.add, atomic_AddInt64, with_val. cbn [val prec desc].
    rewrite !wrap_int64_add_r, !wrap_int64_add_l.
    split; f_equal; f_equal; ring.
Qed.

(** X14: [Add] of a whole number is that many increments.  On a cell whose
    scale factor is a positive int64 with [k * scaleFactor] below [2^53],
    [k] calls of [Inc()] leave the cell [Add(float64(k))] leaves, and [k]
    calls of [Dec()] the cell [Sub(float64(k))] leaves. *)
Theorem Add_of_a_whole_number_is_repeated_Inc :
  forall (conv : float64 -> Z) (g : FixedPrecisionGauge) (k : nat),
    in_int64 (val g) = true ->
    0 < prec g <= max_int64 ->
    Z.of_nat k * prec g < 2 ^ 53 ->
    gauge_calls conv g (repeat call_Inc k) = Gauge.Add conv g (Float64.of_Z (Z.of_nat k))
    /\ gauge_calls conv g (repeat call_Dec k) = Gauge.Sub conv g (Float64.of_Z (Z.of_nat k)).
Proof.
  intros conv g k Hv Hp Hk. unfold max_int64 in Hp.
  assert (Hpi : in_int64 (prec g) = true)
    by (unfold in_int64, min_int64, max_int64; apply andb_true_intro; split; apply Z.leb_le; lia).
  assert (Hkp : in_int64 (Z.of_nat k * prec g) = true)
    by (unfold in_int64, min_int64, max_int64; apply andb_true_intro; split; apply Z.leb_le; nia).
  assert (Hkn : in_int64 (- (Z.of_nat k * prec g)) = true)
    by (unfold in_int64, min_int64, max_int64; apply andb_true_intro; split; apply Z.leb_le; nia).
  assert (Ht : Float64.trunc (Float64.mul (Float64.of_Z (Z.of_nat k)) (Float64.of_Z (prec g)))
               = Some (Z.of_nat k * prec g)).
  { destruct (prec g) as [|b|b] eqn:Eb; try lia.
    destruct (Z.of_nat k) as [|a|a] eqn:Ea; try lia.
    - destruct (of_Z_normal b ltac:(lia)) as (m & e & -> & _). reflexivity.
    - rewrite mul_exact by exact Hk. apply trunc_of_Z. lia. }
  destruct (Inc_repeat conv k g Hv) as [E1 E2]. rewrite E1, E2, (wrap_int64_id _ Hpi).
  rewrite Sub_unfold by apply of_Z_valid.
  unfold Gauge.Add, atomic_AddInt64.
  rewrite (int64_of_float_exact conv _ _ Ht Hkp).
  rewrite mul_neg_l, (int64_of_float_exact conv _ _ (trunc_neg _ _ Ht) Hkn).
  split; f_equal; f_equal; ring.
Qed.

Lemma Add_of_a_whole_number_is_repeated_Inc_witness :
  in_int64 (val (Gauge.NewFixedPrecisionGauge arm64_uint test_opts 3)) = true
  /\ 0 < prec (Gauge.NewFixedPrecisionGauge arm64_uint test_opts 3) <= max_int64
  /\ Z.of_nat 5 * prec (Gauge.NewFixedPrecisionGauge arm64_uint test_opts 3) < 2 ^ 53
  /\ gauge_calls arm64_int64 (Gauge.NewFixedPrecisionGauge arm64_uint test_opts 3)
       (repeat call_Inc 5)
     = Gauge.Add arm64_int64 (Gauge.NewFixedPrecisionGauge arm64_uint test_opts 3)
         (Float64.of_Z (Z.of_nat 5)).
Proof.
  assert (H1 : 0 < prec (Gauge.NewFixedPrecisionGauge arm64_uint test_opts 3) <= max_int64)
    by (vm_compute; split; [reflexivity | discriminate]).
  assert (H2 : Z.of_nat 5 * prec (Gauge.NewFixedPrecisionGauge arm64_uint test_opts 3) < 2 ^ 53)
    by (vm_compute; reflexivity).
  split; [reflexivity | split; [exact H1 | split; [exact H2 | ]]].
  exact (proj1 (Add_of_a_whole_number_is_repeated_Inc arm64_int64
                  (Gauge.NewFixedPrecisionGauge arm64_uint test_opts 3) 5 eq_refl H1 H2)).
Defined.

Lemma of_Z_finite_nonzero v :
  v <> 0 -> - 2 ^ 64 < v < 2 ^ 64 ->
  exists m e, Float64.of_Z v = S754_finite (v <? 0) m e.
Proof.
  intros Hv Hr. destruct v as [|p|p]; try lia.
  - destruct (of_Z_normal p ltac:(lia)) as (m & e & -> & _). exists m, e. reflexivity.
  - rewrite of_Z_neg. destruct (of_Z_normal p ltac:(lia)) as (m & e & -> & _).
    exists m, e. reflexivity.
Qed.

(** X15: [Value()] is a number exactly when the scale factor is not 0.
    With a scale factor from 1 up it is finite for every raw value; with
    the scale factor 0 it is NaN on the raw value 0 and an infinity of the
    raw value's sign otherwise. *)
Theorem Value_is_finite_unless_the_scale_is_zero :
  forall g : FixedPrecisionGauge,
    in_int64 (val g) = true ->
    (0 < prec g <= max_uint -> is_finite (Gauge.Value g) = true)
    /\ (prec g = 0 ->
        Gauge.Value g = if val g =? 0 then Float64.nan else S754_infinity (val g <? 0)).
Proof.
  intros g Hv. unfold in_int64, min_int64, max_int64 in Hv.
  apply andb_prop in Hv. destruct Hv as [L U]. apply Z.leb_le in L. apply Z.leb_le in U.
  unfold Gauge.Value, atomic_LoadInt64. split.
  - intros Hp. unfold max_uint in Hp.
    change (Float64.div (Float64.of_Z (val g)) (Float64.of_Z (prec g)))
      with (value_at (prec g) (val g)).
    destruct (Z.lt_trichotomy (val g) 0) as [N | [Z0 | P]].
    + destruct (value_at_neg_finite (prec g) (- val g) ltac:(lia) ltac:(lia)) as (m & e & E).
      replace (- - val g) with (val g) in E by lia. rewrite E. reflexivity.
    + rewrite Z0, value_at_zero by lia. reflexivity.
    + destruct (value_at_pos (prec g) (val g) ltac:(lia) ltac:(lia)) as (m & e & ->).
      reflexivity.
  - intros ->. destruct (Z.eqb_spec (val g) 0) as [-> | Hn]; [reflexivity | ].
    destruct (of_Z_finite_nonzero (val g) Hn ltac:(lia)) as (m & e & ->).
    cbn. rewrite xorb_false_r. reflexivity.
Qed.

Lemma Value_is_finite_unless_the_scale_is_zero_witness :
  in_int64 (val (Gauge.Dec (Gauge.NewFixedPrecisionGauge arm64_uint test_opts 3))) = true
  /\ 0 < prec (Gauge.Dec (Gauge.NewFixedPrecisionGauge arm64_uint test_opts 3)) <= max_uint
  /\ is_finite (Gauge.Value (Gauge.Dec (Gauge.NewFixedPrecisionGauge arm64_uint test_opts 3)))
     = true.
Proof.
  assert (H : 0 < prec (Gauge.Dec (Gauge.NewFixedPrecisionGauge arm64_uint test_opts 3))
              <= max_uint) by (vm_compute; split; [reflexivity | discriminate]).
  split; [reflexivity | split; [exact H | ]].
  exact (proj1 (Value_is_finite_unless_the_scale_is_zero
                  (Gauge.Dec (Gauge.NewFixedPrecisionGauge arm64_uint test_opts 3)) eq_refl) H).
Defined.
